(** * Lottery: a shallow embedding of [contracts/Lottery.sol]

    The contract is translated function by function.  Solidity values of
    type [uint256] and [address] are natural numbers ([N]); the contract
    is compiled with solidity ^0.8.8, so its arithmetic is checked: a
    subtraction that would go below zero, a modulo by zero and an array
    access out of range abort the call with a [Panic].

    A contract function is a computation in a state-and-error monad over
    the part of the chain the contract can see: its own storage and its
    own ether balance.  A [Revert] carries no state: the transaction
    layer [transact] puts the state of before the call back.  Events and
    calls to other contracts are collected in the order they happen.

    The VRF coordinator is known by its answer only: the chain tells
    which request id it returns, if it returns.  Sending ether hands
    control to the recipient, and the recipient may call back into the
    lottery before the payment ends: the chain tells whether the payment
    succeeds and which calls the recipient (or a contract it calls)
    makes to the external functions of the lottery meanwhile.  The
    fulfilment itself is internal and reached through the coordinator
    only, which delivers a request once and not from inside a delivery;
    it is not among the calls a recipient can make. *)

From stdpp Require Import base tactics decidable option numbers list.
From stdpp Require Import strings gmap.

Open Scope N_scope.

Module Lottery.

(** ** Data *)

Definition uint256 := N.
Definition address := N.

(** [enum LotteryState { OPEN, CALCULATING }] *)
Inductive LotteryState := OPEN | CALCULATING.

#[global] Instance LotteryState_eq_dec : EqDecision LotteryState.
Proof. solve_decision. Defined.

(** [uint256(s_lotteryState)] *)
Definition LotteryState_to_uint256 (s : LotteryState) : uint256 :=
  match s with OPEN => 0 | CALCULATING => 1 end.

(** The panics a checked operation of the contract can raise. *)
Inductive PanicCode :=
| ArithmeticOverflow   (* 0x11 *)
| DivisionByZero       (* 0x12 *)
| IndexOutOfBounds.    (* 0x32 *)

(** The custom errors of the file, the panics, and the revert of a
    contract the lottery calls. *)
Inductive Error :=
| Lottery__NotEnoughEther
| Lottery__TransferFailed
| Lottery__NotOpen
| Lottery__UpkeepNotNeeded (currentBalance numPlayers lotteryState : uint256)
| Panic (code : PanicCode)
| CalleeReverted.

Inductive Event :=
| LotteryEnter (player : address)
| RequestLotteryWinner (requestId : uint256)
| WinnerPicked (winner : address).

(** What leaves the contract during a call. *)
Inductive Effect :=
| Emit (e : Event)
| RequestRandomWords (keyHash : N) (subId : N) (confirmations : N)
                     (callbackGasLimit : N) (numWords : N)
| SendValue (to : address) (amount : uint256).

(** The [immutable] fields, fixed by the constructor. *)
Record Immutables := {
  i_entranceFee : uint256;
  i_vrfCoordinator : address;
  i_gasLane : N;
  i_subscriptionId : N;
  i_callbackGasLimit : N;
  i_interval : uint256
}.

Definition REQUEST_CONFIRMATIONS : N := 3.
Definition NUM_WORDS : N := 1.

(** The storage variables, and [address(this).balance]. *)
Record World := {
  s_players : list address;
  s_recentWinner : address;
  s_lotteryState : LotteryState;
  s_lastTimeStamp : uint256;
  balance : uint256
}.

(** A call into the lottery made by a contract that is being paid. *)
Inductive Reentry :=
| ReenterLottery (msg_sender : address) (msg_value : uint256)
| RecheckUpkeep
| ReperformUpkeep.

(** What the chain provides to a call. *)
Record Env := {
  block_timestamp : uint256;
  (** does [to.call{value: amount}("")] succeed *)
  call_value_ok : address -> uint256 -> bool;
  (** the calls into the lottery made while [to.call{value: amount}("")]
      runs, in their order *)
  call_value_reentry : address -> uint256 -> list Reentry;
  (** the answer of [requestRandomWords], [None] when it reverts *)
  vrf_requestRandomWords : N -> N -> N -> N -> N -> option uint256
}.

Definition set_players (ps : list address) (w : World) : World :=
  {| s_players := ps; s_recentWinner := s_recentWinner w;
     s_lotteryState := s_lotteryState w; s_lastTimeStamp := s_lastTimeStamp w;
     balance := balance w |}.

Definition set_recentWinner (a : address) (w : World) : World :=
  {| s_players := s_players w; s_recentWinner := a;
     s_lotteryState := s_lotteryState w; s_lastTimeStamp := s_lastTimeStamp w;
     balance := balance w |}.

Definition set_lotteryState (s : LotteryState) (w : World) : World :=
  {| s_players := s_players w; s_recentWinner := s_recentWinner w;
     s_lotteryState := s; s_lastTimeStamp := s_lastTimeStamp w;
     balance := balance w |}.

Definition set_lastTimeStamp (t : uint256) (w : World) : World :=
  {| s_players := s_players w; s_recentWinner := s_recentWinner w;
     s_lotteryState := s_lotteryState w; s_lastTimeStamp := t;
     balance := balance w |}.

Definition set_balance (b : uint256) (w : World) : World :=
  {| s_players := s_players w; s_recentWinner := s_recentWinner w;
     s_lotteryState := s_lotteryState w; s_lastTimeStamp := s_lastTimeStamp w;
     balance := b |}.

(** ** The execution monad *)

Inductive Result (A : Type) :=
| Return (a : A) (w : World) (out : list Effect)
| Revert (e : Error).
Arguments Return {A} a w out.
Arguments Revert {A} e.

Definition M (A : Type) : Type := World -> Result A.

#[global] Instance M_ret : MRet M := fun A a w => Return a w [].

#[global] Instance M_bind : MBind M := fun A B f m w =>
  match m w with
  | Return a w1 out1 =>
      match f a w1 with
      | Return b w2 out2 => Return b w2 (out1 ++ out2)
      | Revert e => Revert e
      end
  | Revert e => Revert e
  end.

Definition revert {A} (e : Error) : M A := fun _ => Revert e.
Definition get : M World := fun w => Return w w [].
Definition modify (f : World -> World) : M unit := fun w => Return tt (f w) [].
Definition tell (x : Effect) : M unit := fun w => Return tt w [x].
Definition emit (e : Event) : M unit := tell (Emit e).

(** [a - b] on [uint256] *)
Definition checked_sub (a b : uint256) : M uint256 :=
  if a <? b then revert (Panic ArithmeticOverflow) else mret (a - b).

(** [a % b] on [uint256] *)
Definition checked_mod (a b : uint256) : M uint256 :=
  if b =? 0 then revert (Panic DivisionByZero) else mret (a mod b).

(** [arr[i]] *)
Definition index {A} (arr : list A) (i : uint256) : M A :=
  match arr !! N.to_nat i with
  | Some x => mret x
  | None => revert (Panic IndexOutOfBounds)
  end.

(** [arr.length] *)
Definition len {A} (arr : list A) : uint256 := N.of_nat (length arr).
Arguments len : simpl never.

(** A call reaches the chain as a transaction: what a reverted call did
    is undone, and nothing it emitted is kept. *)
Record Receipt (A : Type) := {
  post : World;
  status : Error + A;
  effects : list Effect
}.
Arguments post {A} r.
Arguments status {A} r.
Arguments effects {A} r.

Definition transact {A} (m : M A) (w : World) : Receipt A :=
  match m w with
  | Return a w' out => {| post := w'; status := inr a; effects := out |}
  | Revert e => {| post := w; status := inl e; effects := [] |}
  end.

(** ** The contract *)

Section Contract.

Variable env : Env.
Variable imm : Immutables.

(** A [payable] function is entered with [msg.value] already added to
    the balance of the contract. *)
Definition receive_value (v : uint256) : M unit :=
  modify (fun w => set_balance (balance w + v) w).

(** [i_vrfCoordinator.requestRandomWords(...)] *)
Definition requestRandomWords (keyHash subId confirmations gasLimit numWords : N)
  : M uint256 :=
  match vrf_requestRandomWords env keyHash subId confirmations gasLimit numWords with
  | Some requestId =>
      tell (RequestRandomWords keyHash subId confirmations gasLimit numWords);;
      mret requestId
  | None => revert CalleeReverted
  end.

Definition enterLottery (msg_sender : address) (msg_value : uint256) : M unit :=
  receive_value msg_value;;
  (if msg_value <? i_entranceFee imm then revert Lottery__NotEnoughEther else mret tt);;
  w ← get;
  (if bool_decide (s_lotteryState w ≠ OPEN) then revert Lottery__NotOpen else mret tt);;
  modify (fun w => set_players (s_players w ++ [msg_sender]) w);;
  emit (LotteryEnter msg_sender).

Definition checkUpkeep : M bool :=
  w ← get;
  let isOpen := bool_decide (OPEN = s_lotteryState w) in
  elapsed ← checked_sub (block_timestamp env) (s_lastTimeStamp w);
  let timePassed := i_interval imm <? elapsed in
  let hasPlayers := 0 <? len (s_players w) in
  let hasBalance := 0 <? balance w in
  mret (isOpen && timePassed && hasPlayers && hasBalance).

Definition performUpkeep : M unit :=
  upkeepNeeded ← checkUpkeep;
  w ← get;
  (if negb upkeepNeeded
   then revert (Lottery__UpkeepNotNeeded (balance w) (len (s_players w))
                  (LotteryState_to_uint256 (s_lotteryState w)))
   else mret tt);;
  modify (set_lotteryState CALCULATING);;
  requestId ← requestRandomWords (i_gasLane imm) (i_subscriptionId imm)
                 REQUEST_CONFIRMATIONS (i_callbackGasLimit imm) NUM_WORDS;
  emit (RequestLotteryWinner requestId).

(** A call made from inside another call: when it reverts it is undone
    alone, and the caller goes on. *)
Definition nested {A} (m : M A) : M unit := fun w =>
  match m w with
  | Return _ w' out => Return tt w' out
  | Revert _ => Return tt w []
  end.

Definition reenter (r : Reentry) : M unit :=
  match r with
  | ReenterLottery msg_sender msg_value => nested (enterLottery msg_sender msg_value)
  | RecheckUpkeep => nested checkUpkeep
  | ReperformUpkeep => nested performUpkeep
  end.

Fixpoint reenter_all (rs : list Reentry) : M unit :=
  match rs with
  | [] => mret tt
  | r :: rs => reenter r;; reenter_all rs
  end.

(** [recipient.call{value: amount}("")]: the ether is moved, the
    recipient runs and may call back; a payment that fails leaves no
    trace of what the recipient did. *)
Definition call_value (recipient : address) (amount : uint256) : M bool :=
  if call_value_ok env recipient amount
  then (modify (fun w => set_balance (balance w - amount) w);;
        tell (SendValue recipient amount);;
        reenter_all (call_value_reentry env recipient amount);;
        mret true)
  else mret false.

(** The first parameter of [fulfillRandomWords] has no name in the
    source: the request id is received and not used.  When both arrays
    are empty the source does not fix which of the two panics is raised;
    here the word is read first. *)
Definition fulfillRandomWords (_ : uint256) (randomWords : list uint256) : M unit :=
  word ← index randomWords 0;
  w ← get;
  indexOfWinner ← checked_mod word (len (s_players w));
  recentWinner ← index (s_players w) indexOfWinner;
  modify (set_recentWinner recentWinner);;
  modify (set_lotteryState OPEN);;
  modify (set_players []);;
  modify (set_lastTimeStamp (block_timestamp env));;
  w' ← get;
  success ← call_value recentWinner (balance w');
  (if negb success then revert Lottery__TransferFailed else mret tt);;
  emit (WinnerPicked recentWinner).

(** The getters. *)
Definition getEntranceFee : M uint256 := mret (i_entranceFee imm).
Definition getPlayer (i : uint256) : M address := w ← get; index (s_players w) i.
Definition getRecentWinner : M address := w ← get; mret (s_recentWinner w).
Definition getLotteryState : M LotteryState := w ← get; mret (s_lotteryState w).
Definition getNumberOfPlayers : M uint256 := w ← get; mret (len (s_players w)).
Definition getTimeStamp : M uint256 := w ← get; mret (s_lastTimeStamp w).
Definition getInterval : M uint256 := mret (i_interval imm).

End Contract.

(** The constructor: the lottery starts open, at the time of deployment. *)
Definition constructor (env : Env) : World :=
  {| s_players := []; s_recentWinner := 0; s_lotteryState := OPEN;
     s_lastTimeStamp := block_timestamp env; balance := 0 |}.

(** What a sequence of calls made during a payment adds to an OPEN
    lottery: the entries whose value covers the fee, and their sum. *)
Fixpoint accepted_entries (imm : Immutables) (rs : list Reentry)
  : list (address * uint256) :=
  match rs with
  | [] => []
  | ReenterLottery msg_sender msg_value :: rs =>
      if msg_value <? i_entranceFee imm
      then accepted_entries imm rs
      else (msg_sender, msg_value) :: accepted_entries imm rs
  | _ :: rs => accepted_entries imm rs
  end.

Fixpoint deposits (entries : list (address * uint256)) : uint256 :=
  match entries with
  | [] => 0
  | (_, msg_value) :: entries => msg_value + deposits entries
  end.

(** The lottery after a fulfilment that paid [paid] to [winner], and
    what the fulfilment let out: the payment, the entries made during
    it, the winner. *)
Definition settled (env : Env) (imm : Immutables) (winner : address) (paid : uint256)
  : World :=
  {| s_players := (accepted_entries imm (call_value_reentry env winner paid)).*1;
     s_recentWinner := winner;
     s_lotteryState := OPEN;
     s_lastTimeStamp := block_timestamp env;
     balance := deposits (accepted_entries imm (call_value_reentry env winner paid)) |}.

Definition settled_effects (env : Env) (imm : Immutables) (winner : address)
    (paid : uint256) : list Effect :=
  SendValue winner paid
  :: ((fun entry => Emit (LotteryEnter entry.1))
        <$> accepted_entries imm (call_value_reentry env winner paid))
  ++ [Emit (WinnerPicked winner)].

(** ** Histories

    The calls that reach the contract, and the worlds a deployed lottery
    can be in: block time never runs backwards. *)
Inductive Call :=
| EnterLottery (msg_sender : address) (msg_value : uint256)
| CheckUpkeep
| PerformUpkeep
| FulfillRandomWords (requestId : uint256) (randomWords : list uint256).

Definition execute (env : Env) (imm : Immutables) (c : Call) (w : World) : World :=
  match c with
  | EnterLottery sender value => post (transact (enterLottery imm sender value) w)
  | CheckUpkeep => post (transact (checkUpkeep env imm) w)
  | PerformUpkeep => post (transact (performUpkeep env imm) w)
  | FulfillRandomWords requestId randomWords =>
      post (transact (fulfillRandomWords env imm requestId randomWords) w)
  end.

Inductive reachable (imm : Immutables) : uint256 -> World -> Prop :=
| reachable_deploy env :
    reachable imm (block_timestamp env) (constructor env)
| reachable_call now w env c :
    reachable imm now w ->
    now <= block_timestamp env ->
    reachable imm (block_timestamp env) (execute env imm c w).

(** ** The eligibility rule, in the words of the specification

    [eligible] is the conjunction the specification gives for
    [checkUpkeep]; its subtraction is the one of the integers.  It is
    compared below with what the contract computes. *)
Definition eligible (now : uint256) (imm : Immutables) (w : World) : Prop :=
  s_lotteryState w = OPEN
  ∧ (Z.of_N now - Z.of_N (s_lastTimeStamp w) > Z.of_N (i_interval imm))%Z
  ∧ s_players w ≠ []
  ∧ 0 < balance w.

#[global] Instance eligible_dec now imm w : Decision (eligible now imm w).
Proof. unfold eligible. apply _. Defined.

(** ** Sample deployments

    The scenario of the specification: a fee of 100, an interval of 10
    seconds, four players who paid 100 each. *)
Module Sample.

Definition imm : Immutables :=
  {| i_entranceFee := 100; i_vrfCoordinator := 900; i_gasLane := 0;
     i_subscriptionId := 1; i_callbackGasLimit := 500000; i_interval := 10 |}.

(** A chain at time [t] on which payments succeed iff [pays], and the
    coordinator answers with request id [rid]. *)
Definition chain (t : uint256) (pays : bool) (rid : uint256) : Env :=
  {| block_timestamp := t;
     call_value_ok := fun _ _ => pays;
     call_value_reentry := fun _ _ => [];
     vrf_requestRandomWords := fun _ _ _ _ _ => Some rid |}.

(** A chain at time [t] on which whoever is paid enters the lottery
    again with what it was paid. *)
Definition reentrant_chain (t : uint256) (rid : uint256) : Env :=
  {| block_timestamp := t;
     call_value_ok := fun _ _ => true;
     call_value_reentry := fun recipient amount => [ReenterLottery recipient amount];
     vrf_requestRandomWords := fun _ _ _ _ _ => Some rid |}.

Definition four_players (st : LotteryState) (last : uint256) : World :=
  {| s_players := [11; 22; 33; 44]; s_recentWinner := 0;
     s_lotteryState := st; s_lastTimeStamp := last; balance := 400 |}.

End Sample.

(** What a call lets out of the contract. *)
Definition call_effects (env : Env) (imm : Immutables) (c : Call) (w : World)
  : list Effect :=
  match c with
  | EnterLottery sender value => effects (transact (enterLottery imm sender value) w)
  | CheckUpkeep => effects (transact (checkUpkeep env imm) w)
  | PerformUpkeep => effects (transact (performUpkeep env imm) w)
  | FulfillRandomWords requestId randomWords =>
      effects (transact (fulfillRandomWords env imm requestId randomWords) w)
  end.

(** ** The front-end address book

    [updateContractAddresses] of the deploy script, on the parsed
    content of [contractAddress.json]: an object from chain ids to
    arrays of contract addresses.  Reading, parsing and writing the file
    are left to the caller; [chainId] is the decimal string of
    [network.config.chainId] and [lottery_address] the address of the
    deployed contract. *)
Module FrontEnd.

Definition updateContractAddresses (chainId lottery_address : string)
    (contractAddresses : gmap string (list string)) : gmap string (list string) :=
  match contractAddresses !! chainId with
  | Some addresses =>
      if bool_decide (lottery_address ∈ addresses)
      then contractAddresses
      else <[chainId := addresses ++ [lottery_address]]> contractAddresses
  | None => <[chainId := [lottery_address]]> contractAddresses
  end.

End FrontEnd.

(** ** Running the monad *)

Lemma bind_Return {A B} (m : M A) (f : A -> M B) w a w1 out1 :
  m w = Return a w1 out1 ->
  (m ≫= f) w = match f a w1 with
               | Return b w2 out2 => Return b w2 (out1 ++ out2)
               | Revert e => Revert e
               end.
Proof. intros Hm. unfold mbind, M_bind. now rewrite Hm. Qed.

Lemma bind_Revert {A B} (m : M A) (f : A -> M B) w e :
  m w = Revert e -> (m ≫= f) w = Revert e.
Proof. intros Hm. unfold mbind, M_bind. now rewrite Hm. Qed.

Lemma transact_Return {A} (m : M A) w a w' out :
  m w = Return a w' out ->
  transact m w = {| post := w'; status := inr a; effects := out |}.
Proof. intros Hm. unfold transact. now rewrite Hm. Qed.

(** A reverted call leaves the chain as it found it. *)
Lemma transact_Revert {A} (m : M A) w e :
  m w = Revert e ->
  transact m w = {| post := w; status := inl e; effects := [] |}.
Proof. intros Hm. unfold transact. now rewrite Hm. Qed.

Ltac run :=
  unfold checked_sub, checked_mod, index, emit;
  unfold revert, get, modify, tell;
  unfold mbind, M_bind, mret, M_ret;
  change (N.to_nat 0) with 0%nat;
  cbn.

(** ** enterLottery *)

Lemma enterLottery_NotEnoughEther imm sender value w :
  value < i_entranceFee imm ->
  enterLottery imm sender value w = Revert Lottery__NotEnoughEther.
Proof.
  intros Hlt. apply N.ltb_lt in Hlt.
  unfold enterLottery, receive_value. run. now rewrite Hlt.
Qed.

Lemma enterLottery_NotOpen imm sender value w :
  i_entranceFee imm <= value ->
  s_lotteryState w ≠ OPEN ->
  enterLottery imm sender value w = Revert Lottery__NotOpen.
Proof.
  intros Hge Hst. apply N.ltb_ge in Hge.
  unfold enterLottery, receive_value. run. rewrite Hge. cbn.
  now rewrite bool_decide_eq_true_2.
Qed.

Lemma enterLottery_Return imm sender value w :
  i_entranceFee imm <= value ->
  s_lotteryState w = OPEN ->
  enterLottery imm sender value w =
    Return tt
      {| s_players := s_players w ++ [sender];
         s_recentWinner := s_recentWinner w;
         s_lotteryState := OPEN;
         s_lastTimeStamp := s_lastTimeStamp w;
         balance := balance w + value |}
      [Emit (LotteryEnter sender)].
Proof.
  intros Hge Hst. apply N.ltb_ge in Hge.
  unfold enterLottery, receive_value. run. rewrite Hge. cbn.
  rewrite bool_decide_eq_false_2 by (intros Hne; now apply Hne).
  cbn. unfold set_players. cbn. now rewrite Hst.
Qed.

(** ** checkUpkeep *)

(** With a clock that is not behind the last draw, [checkUpkeep] returns
    the four-fold conjunction and the state it was given. *)
Lemma checkUpkeep_Return env imm w :
  s_lastTimeStamp w <= block_timestamp env ->
  checkUpkeep env imm w =
    Return (bool_decide (OPEN = s_lotteryState w)
            && (i_interval imm <? block_timestamp env - s_lastTimeStamp w)
            && (0 <? len (s_players w))
            && (0 <? balance w)) w [].
Proof.
  intros Hle. apply N.ltb_ge in Hle.
  unfold checkUpkeep. run. now rewrite Hle.
Qed.

(** With a clock behind the last draw the subtraction is below zero. *)
Lemma checkUpkeep_Panic env imm w :
  block_timestamp env < s_lastTimeStamp w ->
  checkUpkeep env imm w = Revert (Panic ArithmeticOverflow).
Proof.
  intros Hlt. apply N.ltb_lt in Hlt.
  unfold checkUpkeep. run. now rewrite Hlt.
Qed.

Lemma len_pos {A} (l : list A) : (0 <? len l) = true <-> l ≠ [].
Proof.
  unfold len. rewrite N.ltb_lt. destruct l as [|x l]; cbn.
  - split; [lia | congruence].
  - split; [discriminate | lia].
Qed.

(** The boolean of the contract is the conjunction of the specification. *)
Lemma upkeepNeeded_eligible env imm w :
  s_lastTimeStamp w <= block_timestamp env ->
  (bool_decide (OPEN = s_lotteryState w)
   && (i_interval imm <? block_timestamp env - s_lastTimeStamp w)
   && (0 <? len (s_players w))
   && (0 <? balance w)) = true
  <-> eligible (block_timestamp env) imm w.
Proof.
  intros Hle. unfold eligible.
  rewrite !andb_true_iff, bool_decide_eq_true, len_pos, !N.ltb_lt.
  split.
  - intros [[[Ho Ht] Hp] Hb]. repeat split; [congruence | lia | exact Hp | exact Hb].
  - intros (Ho & Ht & Hp & Hb). repeat split; [congruence | lia | exact Hp | exact Hb].
Qed.

Lemma checkUpkeep_Return_or_Panic env imm w :
  checkUpkeep env imm w = Revert (Panic ArithmeticOverflow)
  ∨ exists b, checkUpkeep env imm w = Return b w [].
Proof.
  destruct (N.lt_ge_cases (block_timestamp env) (s_lastTimeStamp w)) as [Hlt|Hle].
  - left. now apply checkUpkeep_Panic.
  - right. eexists. now apply checkUpkeep_Return.
Qed.

(** ** performUpkeep *)

Lemma performUpkeep_UpkeepNotNeeded env imm w :
  checkUpkeep env imm w = Return false w [] ->
  performUpkeep env imm w =
    Revert (Lottery__UpkeepNotNeeded (balance w) (len (s_players w))
              (LotteryState_to_uint256 (s_lotteryState w))).
Proof.
  intros Hchk. unfold performUpkeep.
  erewrite bind_Return by exact Hchk. now run.
Qed.

Lemma performUpkeep_Return env imm w requestId :
  checkUpkeep env imm w = Return true w [] ->
  vrf_requestRandomWords env (i_gasLane imm) (i_subscriptionId imm)
    REQUEST_CONFIRMATIONS (i_callbackGasLimit imm) NUM_WORDS = Some requestId ->
  performUpkeep env imm w =
    Return tt (set_lotteryState CALCULATING w)
      [RequestRandomWords (i_gasLane imm) (i_subscriptionId imm)
         REQUEST_CONFIRMATIONS (i_callbackGasLimit imm) NUM_WORDS;
       Emit (RequestLotteryWinner requestId)].
Proof.
  intros Hchk Hvrf. unfold performUpkeep.
  erewrite bind_Return by exact Hchk.
  unfold requestRandomWords. rewrite Hvrf. now run.
Qed.

Lemma performUpkeep_CalleeReverted env imm w :
  checkUpkeep env imm w = Return true w [] ->
  vrf_requestRandomWords env (i_gasLane imm) (i_subscriptionId imm)
    REQUEST_CONFIRMATIONS (i_callbackGasLimit imm) NUM_WORDS = None ->
  performUpkeep env imm w = Revert CalleeReverted.
Proof.
  intros Hchk Hvrf. unfold performUpkeep.
  erewrite bind_Return by exact Hchk.
  unfold requestRandomWords. rewrite Hvrf. now run.
Qed.

(** ** fulfillRandomWords *)

(** The index of the winner is a position of the array. *)
Lemma indexOfWinner_lt (word : uint256) (players : list address) :
  players ≠ [] -> word mod len players < len players.
Proof.
  intros Hne. apply N.mod_lt.
  apply len_pos in Hne. apply N.ltb_lt in Hne. lia.
Qed.

Lemma indexOfWinner_lookup (word : uint256) (players : list address) :
  players ≠ [] ->
  exists winner, players !! N.to_nat (word mod len players) = Some winner.
Proof.
  intros Hne. apply lookup_lt_is_Some_2.
  pose proof (indexOfWinner_lt word players Hne) as Hlt.
  unfold len in *. lia.
Qed.

Lemma len_nonzero {A} (l : list A) : l ≠ [] -> (len l =? 0) = false.
Proof.
  intros Hne. apply N.eqb_neq. apply len_pos in Hne. apply N.ltb_lt in Hne. lia.
Qed.

(** *** Calls made during a payment *)

Lemma nested_Return {A} (m : M A) w a w' out :
  m w = Return a w' out -> nested m w = Return tt w' out.
Proof. intros Hm. unfold nested. now rewrite Hm. Qed.

Lemma nested_Revert {A} (m : M A) w e :
  m w = Revert e -> nested m w = Return tt w [].
Proof. intros Hm. unfold nested. now rewrite Hm. Qed.

(** No draw can be requested before the interval has elapsed. *)
Lemma performUpkeep_too_early env imm w :
  block_timestamp env <= s_lastTimeStamp w + i_interval imm ->
  exists e, performUpkeep env imm w = Revert e.
Proof.
  intros Hearly.
  destruct (N.lt_ge_cases (block_timestamp env) (s_lastTimeStamp w)) as [Hlt|Hle].
  - eexists. unfold performUpkeep. apply bind_Revert.
    now apply checkUpkeep_Panic.
  - eexists. apply performUpkeep_UpkeepNotNeeded.
    rewrite (checkUpkeep_Return env imm w Hle).
    replace (i_interval imm <? block_timestamp env - s_lastTimeStamp w) with false
      by (symmetry; apply N.ltb_ge; lia).
    now rewrite andb_false_r.
Qed.

(** On an OPEN lottery whose interval has not elapsed, the calls made
    during a payment add the accepted entries and nothing else. *)
Lemma reenter_all_open env imm rs : forall w,
  s_lotteryState w = OPEN ->
  block_timestamp env <= s_lastTimeStamp w + i_interval imm ->
  reenter_all env imm rs w =
    Return tt
      {| s_players := s_players w ++ (accepted_entries imm rs).*1;
         s_recentWinner := s_recentWinner w;
         s_lotteryState := OPEN;
         s_lastTimeStamp := s_lastTimeStamp w;
         balance := balance w + deposits (accepted_entries imm rs) |}
      ((fun entry => Emit (LotteryEnter entry.1)) <$> accepted_entries imm rs).
Proof.
  induction rs as [|r rs IH]; intros w Ho Hearly.
  - cbn. rewrite app_nil_r, N.add_0_r, <- Ho. now destruct w.
  - cbn [reenter_all].
    destruct r as [sender value| |]; cbn [reenter accepted_entries].
    + destruct (value <? i_entranceFee imm) eqn:Hfee.
      * apply N.ltb_lt in Hfee.
        erewrite bind_Return
          by (eapply nested_Revert; now apply enterLottery_NotEnoughEther).
        now rewrite (IH w Ho Hearly).
      * apply N.ltb_ge in Hfee.
        erewrite bind_Return
          by (eapply nested_Return; now apply enterLottery_Return).
        rewrite IH by (cbn; auto). cbn.
        now rewrite <- app_assoc, N.add_assoc.
    + destruct (checkUpkeep_Return_or_Panic env imm w) as [Hp|[b Hr]].
      * erewrite bind_Return by (eapply nested_Revert; exact Hp).
        now rewrite (IH w Ho Hearly).
      * erewrite bind_Return by (eapply nested_Return; exact Hr).
        now rewrite (IH w Ho Hearly).
    + destruct (performUpkeep_too_early env imm w Hearly) as [e He].
      erewrite bind_Return by (eapply nested_Revert; exact He).
      now rewrite (IH w Ho Hearly).
Qed.

Lemma deposits_cover imm rs :
  i_entranceFee imm * len (accepted_entries imm rs).*1
  <= deposits (accepted_entries imm rs).
Proof.
  induction rs as [|[sender value| |] rs IH]; cbn; try exact IH.
  - unfold len; cbn. lia.
  - destruct (value <? i_entranceFee imm) eqn:Hfee; [exact IH|].
    apply N.ltb_ge in Hfee. cbn. unfold len in *. cbn. lia.
Qed.

Lemma fulfillRandomWords_Return env imm requestId word rest w winner :
  s_players w !! N.to_nat (word mod len (s_players w)) = Some winner ->
  call_value_ok env winner (balance w) = true ->
  fulfillRandomWords env imm requestId (word :: rest) w =
    Return tt (settled env imm winner (balance w))
      (settled_effects env imm winner (balance w)).
Proof.
  intros Hwin Hpay.
  assert (Hne : s_players w ≠ []) by (intros Hnil; now rewrite Hnil in Hwin).
  unfold fulfillRandomWords, call_value. run.
  rewrite (len_nonzero _ Hne), Hwin. cbn. rewrite Hpay. cbn.
  unfold set_balance. cbn. rewrite N.sub_diag.
  rewrite reenter_all_open by (cbn; first [reflexivity | lia]).
  cbn. rewrite N.add_0_l, app_nil_r. reflexivity.
Qed.

Lemma fulfillRandomWords_TransferFailed env imm requestId word rest w winner :
  s_players w !! N.to_nat (word mod len (s_players w)) = Some winner ->
  call_value_ok env winner (balance w) = false ->
  fulfillRandomWords env imm requestId (word :: rest) w = Revert Lottery__TransferFailed.
Proof.
  intros Hwin Hpay.
  assert (Hne : s_players w ≠ []) by (intros Hnil; now rewrite Hnil in Hwin).
  unfold fulfillRandomWords, call_value. run.
  rewrite (len_nonzero _ Hne), Hwin. cbn. now rewrite Hpay.
Qed.

Lemma fulfillRandomWords_DivisionByZero env imm requestId word rest w :
  s_players w = [] ->
  fulfillRandomWords env imm requestId (word :: rest) w = Revert (Panic DivisionByZero).
Proof.
  intros Hnil. unfold fulfillRandomWords. run. now rewrite Hnil.
Qed.

Lemma fulfillRandomWords_no_word env imm requestId w :
  fulfillRandomWords env imm requestId [] w = Revert (Panic IndexOutOfBounds).
Proof. reflexivity. Qed.

(** A call that returns leaves a recognisable state. *)
Lemma fulfillRandomWords_cases env imm requestId randomWords w :
  (exists e, fulfillRandomWords env imm requestId randomWords w = Revert e)
  ∨ (exists w' out, fulfillRandomWords env imm requestId randomWords w = Return tt w' out
       ∧ s_lotteryState w' = OPEN
       ∧ s_lastTimeStamp w' = block_timestamp env).
Proof.
  destruct randomWords as [|word rest].
  { left. eexists. apply fulfillRandomWords_no_word. }
  destruct (decide (s_players w = [])) as [Hnil|Hne].
  { left. eexists. now apply fulfillRandomWords_DivisionByZero. }
  destruct (indexOfWinner_lookup word _ Hne) as [winner Hwin].
  destruct (call_value_ok env winner (balance w)) eqn:Hpay.
  - right. do 2 eexists. split.
    + now apply fulfillRandomWords_Return with (winner := winner).
    + now cbn.
  - left. eexists. now apply fulfillRandomWords_TransferFailed with (winner := winner).
Qed.

Lemma transact_status_inr {A} (m : M A) w a :
  status (transact m w) = inr a -> exists w' out, m w = Return a w' out.
Proof.
  unfold transact. destruct (m w) as [a' w' out|e]; cbn; intros Hst.
  - injection Hst as ->. now exists w', out.
  - discriminate.
Qed.

Lemma fulfillRandomWords_Return_inv env imm requestId randomWords w w' out :
  fulfillRandomWords env imm requestId randomWords w = Return tt w' out ->
  exists word rest winner,
    randomWords = word :: rest
    ∧ s_players w !! N.to_nat (word mod len (s_players w)) = Some winner
    ∧ call_value_ok env winner (balance w) = true
    ∧ w' = settled env imm winner (balance w)
    ∧ out = settled_effects env imm winner (balance w).
Proof.
  unfold uint256 in *. intros Hr.
  destruct randomWords as [|word rest]; [discriminate Hr|].
  destruct (decide (s_players w = [])) as [Hp|Hp].
  { rewrite (fulfillRandomWords_DivisionByZero _ imm requestId word rest w Hp) in Hr.
    discriminate. }
  destruct (indexOfWinner_lookup word _ Hp) as [winner Hwin].
  destruct (call_value_ok env winner (balance w)) eqn:Hpay.
  - rewrite (fulfillRandomWords_Return _ imm requestId _ rest _ _ Hwin Hpay) in Hr.
    injection Hr as <- <-. now exists word, rest, winner.
  - rewrite (fulfillRandomWords_TransferFailed _ imm requestId _ rest _ _ Hwin Hpay) in Hr.
    discriminate.
Qed.

(** ** Histories *)

Lemma checkUpkeep_cases env imm w :
  checkUpkeep env imm w = Revert (Panic ArithmeticOverflow)
  ∨ exists b, checkUpkeep env imm w = Return b w [].
Proof.
  destruct (N.lt_ge_cases (block_timestamp env) (s_lastTimeStamp w)) as [Hlt|Hle].
  - left. now apply checkUpkeep_Panic.
  - right. eexists. now apply checkUpkeep_Return.
Qed.

Lemma checkUpkeep_Return_inv env imm w b w' out :
  checkUpkeep env imm w = Return b w' out -> w' = w ∧ out = [].
Proof.
  intros Hchk. destruct (checkUpkeep_cases env imm w) as [Hp|[b' Hr]].
  - congruence.
  - rewrite Hr in Hchk. now inversion Hchk.
Qed.

Lemma performUpkeep_cases env imm w :
  (exists e, performUpkeep env imm w = Revert e)
  ∨ (exists out, performUpkeep env imm w = Return tt (set_lotteryState CALCULATING w) out
       ∧ checkUpkeep env imm w = Return true w []).
Proof.
  destruct (checkUpkeep_cases env imm w) as [Hp|[[|] Hr]].
  - left. eexists. unfold performUpkeep. apply bind_Revert. exact Hp.
  - destruct (vrf_requestRandomWords env (i_gasLane imm) (i_subscriptionId imm)
                REQUEST_CONFIRMATIONS (i_callbackGasLimit imm) NUM_WORDS)
      as [requestId|] eqn:Hvrf.
    + right. eexists. split; [now apply performUpkeep_Return with (requestId := requestId) | exact Hr].
    + left. eexists. now apply performUpkeep_CalleeReverted.
  - left. eexists. now apply performUpkeep_UpkeepNotNeeded.
Qed.

(** The time of the last draw is never ahead of the clock. *)
Lemma execute_lastTimeStamp env imm c w now :
  s_lastTimeStamp w <= now -> now <= block_timestamp env ->
  s_lastTimeStamp (execute env imm c w) <= block_timestamp env.
Proof.
  intros Hw Hnow. destruct c as [sender value| | |requestId randomWords]; cbn.
  - destruct (N.lt_ge_cases value (i_entranceFee imm)) as [Hlt|Hge].
    { erewrite transact_Revert by now apply enterLottery_NotEnoughEther. cbn. lia. }
    destruct (decide (s_lotteryState w = OPEN)) as [Ho|Hn].
    + erewrite transact_Return by now apply enterLottery_Return. cbn. lia.
    + erewrite transact_Revert by now apply enterLottery_NotOpen. cbn. lia.
  - destruct (checkUpkeep_cases env imm w) as [Hp|[b Hr]].
    + erewrite transact_Revert by exact Hp. cbn. lia.
    + erewrite transact_Return by exact Hr. cbn. lia.
  - destruct (performUpkeep_cases env imm w) as [[e He]|(out & Hr & _)].
    + erewrite transact_Revert by exact He. cbn. lia.
    + erewrite transact_Return by exact Hr. cbn. lia.
  - destruct (fulfillRandomWords_cases env imm requestId randomWords w)
      as [[e He]|(w' & out & Hr & _ & Ht)].
    + erewrite transact_Revert by exact He. cbn. lia.
    + erewrite transact_Return by exact Hr. cbn. lia.
Qed.

Lemma reachable_lastTimeStamp imm now w :
  reachable imm now w -> s_lastTimeStamp w <= now.
Proof.
  induction 1 as [env|now w env c Hreach IH Hnow].
  - cbn. lia.
  - now apply execute_lastTimeStamp with (now := now).
Qed.

(** A draw is requested only with players to draw from. *)
Lemma checkUpkeep_true_players env imm w w' out :
  checkUpkeep env imm w = Return true w' out -> s_players w ≠ [].
Proof.
  intros Hchk.
  destruct (N.lt_ge_cases (block_timestamp env) (s_lastTimeStamp w)) as [Hlt|Hle].
  - rewrite (checkUpkeep_Panic env imm w Hlt) in Hchk. discriminate.
  - rewrite (checkUpkeep_Return env imm w Hle) in Hchk.
    injection Hchk as Hb _ _.
    apply andb_true_iff in Hb as [Hb _]. apply andb_true_iff in Hb as [_ Hp].
    now apply len_pos.
Qed.

Lemma execute_calculating_players env imm c w :
  (s_lotteryState w = CALCULATING -> s_players w ≠ []) ->
  s_lotteryState (execute env imm c w) = CALCULATING ->
  s_players (execute env imm c w) ≠ [].
Proof.
  intros Hw. destruct c as [sender value| | |requestId randomWords]; cbn.
  - destruct (N.lt_ge_cases value (i_entranceFee imm)) as [Hlt|Hge].
    { now erewrite transact_Revert by now apply enterLottery_NotEnoughEther. }
    destruct (decide (s_lotteryState w = OPEN)) as [Ho|Hn].
    + erewrite transact_Return by now apply enterLottery_Return. cbn. discriminate.
    + now erewrite transact_Revert by now apply enterLottery_NotOpen.
  - destruct (checkUpkeep_cases env imm w) as [Hp|[b Hr]].
    + now erewrite transact_Revert by exact Hp.
    + now erewrite transact_Return by exact Hr.
  - destruct (performUpkeep_cases env imm w) as [[e He]|(out & Hr & Hchk)].
    + now erewrite transact_Revert by exact He.
    + erewrite transact_Return by exact Hr. cbn. intros _.
      now apply checkUpkeep_true_players in Hchk.
  - destruct (fulfillRandomWords_cases env imm requestId randomWords w)
      as [[e He]|(w' & out & Hr & Hs & _)].
    + now erewrite transact_Revert by exact He.
    + erewrite transact_Return by exact Hr. cbn. rewrite Hs. discriminate.
Qed.

Lemma reachable_calculating_players imm now w :
  reachable imm now w -> s_lotteryState w = CALCULATING -> s_players w ≠ [].
Proof.
  induction 1 as [env|now w env c Hreach IH Hnow].
  - cbn. discriminate.
  - now apply execute_calculating_players.
Qed.

(** On a deployed lottery [checkUpkeep] always returns. *)
Lemma reachable_checkUpkeep_returns imm now w env :
  reachable imm now w -> now <= block_timestamp env ->
  exists b, checkUpkeep env imm w = Return b w [].
Proof.
  intros Hreach Hnow. eexists. apply checkUpkeep_Return.
  apply reachable_lastTimeStamp in Hreach. lia.
Qed.

(** A lottery deployed at time 50 that one player has entered. *)
Lemma reachable_one_entry :
  reachable Sample.imm 61
    (execute (Sample.chain 61 true 7) Sample.imm (EnterLottery 11 100)
       (constructor (Sample.chain 50 true 7))).
Proof.
  apply (reachable_call Sample.imm 50 _ (Sample.chain 61 true 7)).
  - apply (reachable_deploy Sample.imm (Sample.chain 50 true 7)).
  - cbn; lia.
Defined.

(** The same lottery after the draw has been requested. *)
Lemma reachable_requested :
  reachable Sample.imm 61
    (execute (Sample.chain 61 true 7) Sample.imm PerformUpkeep
       (execute (Sample.chain 61 true 7) Sample.imm (EnterLottery 11 100)
          (constructor (Sample.chain 50 true 7)))).
Proof.
  apply (reachable_call Sample.imm 61 _ (Sample.chain 61 true 7)).
  - exact reachable_one_entry.
  - cbn; lia.
Defined.

(** ** The properties of the specification *)

(** C1, as the contract has it.  From every state whose players
    sequence is not empty (a pending draw in particular),
    [fulfillRandomWords], delivered under any request id with the random
    value [randomValue] and paying out successfully, picks the player at
    index [randomValue mod players.length] and sends that player the
    whole balance; afterwards that player is the recent winner, the
    state is OPEN and the last draw time is the time of the block.  The
    players sequence and the balance hold what was entered by calls made
    into [enterLottery] while the winner was being paid, and nothing
    else: they are empty and zero when no such call was made. *)
Theorem fulfillRandomWords_picks_winner env imm requestId randomValue rest w :
  s_players w ≠ [] ->
  (forall winner,
     s_players w !! N.to_nat (randomValue mod len (s_players w)) = Some winner ->
     call_value_ok env winner (balance w) = true) ->
  exists winner,
    s_players w !! N.to_nat (randomValue mod len (s_players w)) = Some winner
    ∧ transact (fulfillRandomWords env imm requestId (randomValue :: rest)) w =
        {| post :=
             {| s_players :=
                  (accepted_entries imm
                     (call_value_reentry env winner (balance w))).*1;
                s_recentWinner := winner;
                s_lotteryState := OPEN;
                s_lastTimeStamp := block_timestamp env;
                balance :=
                  deposits (accepted_entries imm
                              (call_value_reentry env winner (balance w))) |};
           status := inr tt;
           effects :=
             SendValue winner (balance w)
             :: ((fun entry => Emit (LotteryEnter entry.1))
                   <$> accepted_entries imm
                         (call_value_reentry env winner (balance w)))
             ++ [Emit (WinnerPicked winner)] |}
    ∧ (call_value_reentry env winner (balance w) = [] ->
       transact (fulfillRandomWords env imm requestId (randomValue :: rest)) w =
         {| post := {| s_players := []; s_recentWinner := winner;
                       s_lotteryState := OPEN;
                       s_lastTimeStamp := block_timestamp env; balance := 0 |};
            status := inr tt;
            effects := [SendValue winner (balance w); Emit (WinnerPicked winner)] |}).
Proof.
  intros Hne Hpay.
  destruct (indexOfWinner_lookup randomValue _ Hne) as [winner Hwin].
  exists winner. split; [exact Hwin|].
  pose proof (fulfillRandomWords_Return env imm requestId randomValue rest w winner
                Hwin (Hpay winner Hwin)) as Hr.
  apply transact_Return in Hr. split; [exact Hr|].
  intros Hnone. rewrite Hr. unfold settled, settled_effects. now rewrite Hnone.
Qed.

(** The second scenario of the specification: four players, a pool of
    400 and the random value 42; the player at index 2 wins and does not
    call back. *)
Lemma fulfillRandomWords_picks_winner_witness :
  exists winner,
    [11; 22; 33; 44] !! 2%nat = Some winner
    ∧ transact (fulfillRandomWords (Sample.chain 100 true 1) Sample.imm 1 [42])
        (Sample.four_players CALCULATING 50) =
        {| post := {| s_players := []; s_recentWinner := winner;
                      s_lotteryState := OPEN; s_lastTimeStamp := 100;
                      balance := 0 |};
           status := inr tt;
           effects := [SendValue winner 400; Emit (WinnerPicked winner)] |}.
Proof.
  destruct (fulfillRandomWords_picks_winner (Sample.chain 100 true 1) Sample.imm
              1 42 [] (Sample.four_players CALCULATING 50))
    as (winner & Hwin & _ & Hplain).
  - discriminate.
  - intros winner _. reflexivity.
  - exists winner. split; [exact Hwin|]. apply Hplain. reflexivity.
Defined.

(** C1 as stated fails: a winner that enters again while it is paid
    ends a fulfilment that went through with itself among the players
    and its entry in the balance. *)
Lemma fulfillRandomWords_winner_reenters :
  s_players (Sample.four_players CALCULATING 50) ≠ []
  ∧ status (transact (fulfillRandomWords (Sample.reentrant_chain 100 1) Sample.imm
                        1 [42])
              (Sample.four_players CALCULATING 50)) = inr tt
  ∧ s_recentWinner
      (post (transact (fulfillRandomWords (Sample.reentrant_chain 100 1) Sample.imm
                         1 [42])
               (Sample.four_players CALCULATING 50))) = 33
  ∧ s_players
      (post (transact (fulfillRandomWords (Sample.reentrant_chain 100 1) Sample.imm
                         1 [42])
               (Sample.four_players CALCULATING 50))) = [33]
  ∧ balance
      (post (transact (fulfillRandomWords (Sample.reentrant_chain 100 1) Sample.imm
                         1 [42])
               (Sample.four_players CALCULATING 50))) = 400.
Proof. repeat split. discriminate. Qed.

(** C3. When the payout to the selected winner fails,
    [fulfillRandomWords] is aborted with [Lottery__TransferFailed] and
    the chain is as before the call: state, players, recent winner,
    last draw time and balance are all unchanged, and nothing is
    emitted. *)
Theorem fulfillRandomWords_payout_failure env imm requestId randomValue rest w winner :
  s_players w !! N.to_nat (randomValue mod len (s_players w)) = Some winner ->
  call_value_ok env winner (balance w) = false ->
  transact (fulfillRandomWords env imm requestId (randomValue :: rest)) w =
    {| post := w; status := inl Lottery__TransferFailed; effects := [] |}.
Proof.
  intros Hwin Hpay.
  now apply transact_Revert, fulfillRandomWords_TransferFailed with (winner := winner).
Qed.

Lemma fulfillRandomWords_payout_failure_witness :
  transact (fulfillRandomWords (Sample.chain 100 false 1) Sample.imm 1 [42])
    (Sample.four_players CALCULATING 50) =
    {| post := Sample.four_players CALCULATING 50;
       status := inl Lottery__TransferFailed; effects := [] |}.
Proof.
  apply (fulfillRandomWords_payout_failure (Sample.chain 100 false 1) Sample.imm 1 42 []
           (Sample.four_players CALCULATING 50) 33); reflexivity.
Defined.

(** C4. A contribution below the entrance fee makes [enterLottery] fail
    with [Lottery__NotEnoughEther], whatever the state, and leaves the
    players sequence and every other field as they were. *)
Theorem enterLottery_below_fee imm msg_sender msg_value w :
  msg_value < i_entranceFee imm ->
  transact (enterLottery imm msg_sender msg_value) w =
    {| post := w; status := inl Lottery__NotEnoughEther; effects := [] |}.
Proof.
  intros Hlt. now apply transact_Revert, enterLottery_NotEnoughEther.
Qed.

Lemma enterLottery_below_fee_witness :
  99 < i_entranceFee Sample.imm
  ∧ transact (enterLottery Sample.imm 55 99) (Sample.four_players OPEN 50) =
      {| post := Sample.four_players OPEN 50;
         status := inl Lottery__NotEnoughEther; effects := [] |}.
Proof.
  split; [reflexivity|].
  apply (enterLottery_below_fee Sample.imm 55 99 (Sample.four_players OPEN 50)).
  reflexivity.
Defined.

(** C5, as the contract has it.  While the state is CALCULATING
    [enterLottery] fails for every contribution and changes nothing; the
    error is [Lottery__NotOpen] when the contribution covers the fee,
    and [Lottery__NotEnoughEther] when it does not, the fee being
    checked first. *)
Theorem enterLottery_calculating imm msg_sender msg_value w :
  s_lotteryState w = CALCULATING ->
  transact (enterLottery imm msg_sender msg_value) w =
    {| post := w;
       status := inl (if msg_value <? i_entranceFee imm
                      then Lottery__NotEnoughEther else Lottery__NotOpen);
       effects := [] |}.
Proof.
  intros Hst. destruct (msg_value <? i_entranceFee imm) eqn:Hfee.
  - apply N.ltb_lt in Hfee. now apply transact_Revert, enterLottery_NotEnoughEther.
  - apply N.ltb_ge in Hfee. apply transact_Revert, enterLottery_NotOpen; [exact Hfee|].
    rewrite Hst. discriminate.
Qed.

Lemma enterLottery_calculating_witness :
  transact (enterLottery Sample.imm 55 100) (Sample.four_players CALCULATING 50) =
    {| post := Sample.four_players CALCULATING 50;
       status := inl Lottery__NotOpen; effects := [] |}.
Proof.
  apply (enterLottery_calculating Sample.imm 55 100
           (Sample.four_players CALCULATING 50)).
  reflexivity.
Defined.

(** C5 as stated fails: in state CALCULATING a contribution of 50 against
    a fee of 100 is refused with [Lottery__NotEnoughEther], not with
    [Lottery__NotOpen]. *)
Lemma enterLottery_calculating_low_value :
  s_lotteryState (Sample.four_players CALCULATING 50) = CALCULATING
  ∧ status (transact (enterLottery Sample.imm 55 50)
              (Sample.four_players CALCULATING 50))
    = inl Lottery__NotEnoughEther
  ∧ status (transact (enterLottery Sample.imm 55 50)
              (Sample.four_players CALCULATING 50))
    ≠ inl Lottery__NotOpen.
Proof. repeat split. discriminate. Qed.


(** A state with a last draw time ahead of the clock, which no deployed
    lottery is in: there [checkUpkeep] aborts. *)
Lemma checkUpkeep_clock_behind :
  ¬ eligible 49 Sample.imm (Sample.four_players OPEN 50)
  ∧ checkUpkeep (Sample.chain 49 true 1) Sample.imm (Sample.four_players OPEN 50)
    = Revert (Panic ArithmeticOverflow)
  ∧ (forall w' out,
       checkUpkeep (Sample.chain 49 true 1) Sample.imm (Sample.four_players OPEN 50)
       ≠ Return false w' out).
Proof.
  split; [|split].
  - unfold eligible; cbn. intros (_ & Ht & _). lia.
  - reflexivity.
  - intros w' out. discriminate.
Qed.



(** C8. [checkUpkeep] is read-only: whenever it returns, it hands back
    the very state it was given and has emitted nothing, and when it
    aborts the state is that of before the call; so every field
    (players, recent winner, state, last draw time, balance) is
    unchanged after the call. *)
Theorem checkUpkeep_read_only env imm w :
  post (transact (checkUpkeep env imm) w) = w
  ∧ effects (transact (checkUpkeep env imm) w) = []
  ∧ (checkUpkeep env imm w = Revert (Panic ArithmeticOverflow)
     ∨ exists upkeepNeeded, checkUpkeep env imm w = Return upkeepNeeded w []).
Proof.
  pose proof (checkUpkeep_cases env imm w) as Hc.
  split; [|split; [|exact Hc]].
  - destruct Hc as [Hp|[b Hr]].
    + now rewrite (transact_Revert _ _ _ Hp).
    + now rewrite (transact_Return _ _ _ _ _ Hr).
  - destruct Hc as [Hp|[b Hr]].
    + now rewrite (transact_Revert _ _ _ Hp).
    + now rewrite (transact_Return _ _ _ _ _ Hr).
Qed.

(** C6. When the re-verification inside [performUpkeep] (its call of
    [checkUpkeep]) returns false, the call fails with
    [Lottery__UpkeepNotNeeded] carrying the balance, the number of
    players and the state, and changes nothing; when it returns true and
    the coordinator answers the request with [requestId], the state
    becomes CALCULATING, the request is issued and [requestId] is
    emitted. *)
Theorem performUpkeep_reverifies env imm w :
  (forall w' out,
     checkUpkeep env imm w = Return false w' out ->
     transact (performUpkeep env imm) w =
       {| post := w;
          status := inl (Lottery__UpkeepNotNeeded (balance w) (len (s_players w))
                           (LotteryState_to_uint256 (s_lotteryState w)));
          effects := [] |})
  ∧ (forall w' out requestId,
       checkUpkeep env imm w = Return true w' out ->
       vrf_requestRandomWords env (i_gasLane imm) (i_subscriptionId imm)
         REQUEST_CONFIRMATIONS (i_callbackGasLimit imm) NUM_WORDS = Some requestId ->
       transact (performUpkeep env imm) w =
         {| post := set_lotteryState CALCULATING w;
            status := inr tt;
            effects := [RequestRandomWords (i_gasLane imm) (i_subscriptionId imm)
                          REQUEST_CONFIRMATIONS (i_callbackGasLimit imm) NUM_WORDS;
                        Emit (RequestLotteryWinner requestId)] |}).
Proof.
  split.
  - intros w' out Hchk.
    destruct (checkUpkeep_Return_inv _ _ _ _ _ _ Hchk) as [-> ->].
    now apply transact_Revert, performUpkeep_UpkeepNotNeeded.
  - intros w' out requestId Hchk Hvrf.
    destruct (checkUpkeep_Return_inv _ _ _ _ _ _ Hchk) as [-> ->].
    now apply transact_Return, performUpkeep_Return.
Qed.

Lemma performUpkeep_reverifies_witness :
  transact (performUpkeep (Sample.chain 51 true 7) Sample.imm)
    (Sample.four_players OPEN 50) =
    {| post := Sample.four_players OPEN 50;
       status := inl (Lottery__UpkeepNotNeeded 400 4 0);
       effects := [] |}
  ∧ transact (performUpkeep (Sample.chain 61 true 7) Sample.imm)
      (Sample.four_players OPEN 50) =
      {| post := Sample.four_players CALCULATING 50;
         status := inr tt;
         effects := [RequestRandomWords 0 1 3 500000 1;
                     Emit (RequestLotteryWinner 7)] |}.
Proof.
  split.
  - apply (proj1 (performUpkeep_reverifies (Sample.chain 51 true 7) Sample.imm
                    (Sample.four_players OPEN 50))
             (Sample.four_players OPEN 50) []).
    reflexivity.
  - apply (proj2 (performUpkeep_reverifies (Sample.chain 61 true 7) Sample.imm
                    (Sample.four_players OPEN 50))
             (Sample.four_players OPEN 50) [] 7); reflexivity.
Defined.

(** C10. The outcome of [fulfillRandomWords] does not depend on the
    request id: under two request ids, from the same state and with the
    same random words, the two runs return the same result, and the two
    transactions leave the same state, status and effects. *)
Theorem fulfillRandomWords_ignores_requestId env imm requestId1 requestId2 randomWords w :
  fulfillRandomWords env imm requestId1 randomWords w
    = fulfillRandomWords env imm requestId2 randomWords w
  ∧ transact (fulfillRandomWords env imm requestId1 randomWords) w
    = transact (fulfillRandomWords env imm requestId2 randomWords) w.
Proof. split; reflexivity. Qed.

(** C7, as the contract has it.  The contract keeps no pending request
    id and compares none: delivered under a request id other than the
    pending one, [fulfillRandomWords] does what it does under the
    pending one.  The players sequence and the state are unchanged when
    the call aborts (no random word, no player, or a failed payout);
    when it returns, the state is OPEN and the players of the round are
    gone: the players sequence holds the entries made while the winner
    was being paid, and nothing else. *)
Theorem fulfillRandomWords_other_requestId env imm pending requestId randomWords w :
  requestId ≠ pending ->
  transact (fulfillRandomWords env imm requestId randomWords) w
    = transact (fulfillRandomWords env imm pending randomWords) w
  ∧ match status (transact (fulfillRandomWords env imm requestId randomWords) w) with
    | inl _ =>
        post (transact (fulfillRandomWords env imm requestId randomWords) w) = w
    | inr _ =>
        s_lotteryState
          (post (transact (fulfillRandomWords env imm requestId randomWords) w)) = OPEN
        ∧ (exists winner,
             winner ∈ s_players w
             ∧ s_players
                 (post (transact (fulfillRandomWords env imm requestId randomWords) w))
               = (accepted_entries imm
                    (call_value_reentry env winner (balance w))).*1)
    end.
Proof.
  intros _. split; [reflexivity|].
  destruct (fulfillRandomWords_cases env imm requestId randomWords w)
    as [[e He]|(w' & out & Hr & Hs & _)].
  - now rewrite (transact_Revert _ _ _ He).
  - rewrite (transact_Return _ _ _ _ _ Hr). cbn. split; [exact Hs|].
    destruct (fulfillRandomWords_Return_inv _ _ _ _ _ _ _ Hr)
      as (word & rest & winner & _ & Hwin & _ & -> & _).
    exists winner. split; [|reflexivity].
    now apply list_elem_of_lookup_2 in Hwin.
Qed.

Lemma fulfillRandomWords_other_requestId_witness :
  transact (fulfillRandomWords (Sample.chain 100 true 1) Sample.imm 2 [42])
    (Sample.four_players CALCULATING 50)
  = transact (fulfillRandomWords (Sample.chain 100 true 1) Sample.imm 1 [42])
      (Sample.four_players CALCULATING 50)
  ∧ s_lotteryState
      (post (transact (fulfillRandomWords (Sample.chain 100 true 1) Sample.imm 2 [42])
               (Sample.four_players CALCULATING 50))) = OPEN
  ∧ (exists winner,
       winner ∈ [11; 22; 33; 44]
       ∧ s_players
           (post (transact (fulfillRandomWords (Sample.chain 100 true 1) Sample.imm
                              2 [42])
                    (Sample.four_players CALCULATING 50))) = []).
Proof.
  apply (fulfillRandomWords_other_requestId (Sample.chain 100 true 1) Sample.imm 1 2 [42]
           (Sample.four_players CALCULATING 50)).
  discriminate.
Defined.

(** C7 as stated fails.  After [performUpkeep] has put the lottery in
    state CALCULATING with request id 1 pending, a fulfilment delivered
    under request id 2 empties the players sequence and reopens the
    lottery. *)
Lemma fulfillRandomWords_stale_requestId :
  let requested :=
    transact (performUpkeep (Sample.chain 61 true 1) Sample.imm)
      (Sample.four_players OPEN 50) in
  let fulfilled :=
    transact (fulfillRandomWords (Sample.chain 100 true 1) Sample.imm 2 [42])
      (post requested) in
  effects requested
    = [RequestRandomWords 0 1 3 500000 1; Emit (RequestLotteryWinner 1)]
  ∧ s_lotteryState (post requested) = CALCULATING
  ∧ (2 : uint256) ≠ 1
  ∧ s_players (post fulfilled) ≠ s_players (post requested)
  ∧ s_lotteryState (post fulfilled) ≠ s_lotteryState (post requested).
Proof. cbn. repeat split; discriminate. Qed.

(** C9. With a players sequence that is not empty the winner index
    [randomValue mod players.length] is below [players.length], the
    player at that index exists, and [fulfillRandomWords] raises no
    panic; with an empty players sequence [fulfillRandomWords] fails on
    the modulo by zero, and selects nobody. *)
Theorem indexOfWinner_in_bounds env imm requestId randomValue rest w :
  (s_players w ≠ [] ->
     randomValue mod len (s_players w) < len (s_players w)
     ∧ (exists winner,
          s_players w !! N.to_nat (randomValue mod len (s_players w)) = Some winner)
     ∧ (forall code,
          fulfillRandomWords env imm requestId (randomValue :: rest) w
          ≠ Revert (Panic code)))
  ∧ (s_players w = [] ->
     fulfillRandomWords env imm requestId (randomValue :: rest) w
     = Revert (Panic DivisionByZero)).
Proof.
  split; [|apply fulfillRandomWords_DivisionByZero].
  intros Hne. split; [now apply indexOfWinner_lt|].
  destruct (indexOfWinner_lookup randomValue _ Hne) as [winner Hwin].
  split; [now exists winner|].
  intros code. destruct (call_value_ok env winner (balance w)) eqn:Hpay.
  - now rewrite (fulfillRandomWords_Return _ imm requestId _ rest _ _ Hwin Hpay).
  - now rewrite (fulfillRandomWords_TransferFailed _ imm requestId _ rest _ _ Hwin Hpay).
Qed.

Lemma indexOfWinner_in_bounds_witness :
  (42 mod len [11; 22; 33; 44] < len [11; 22; 33; 44]
   ∧ [11; 22; 33; 44] !! 2%nat = Some 33)
  ∧ fulfillRandomWords (Sample.chain 100 true 1) Sample.imm 1 [42]
      (constructor (Sample.chain 50 true 1))
    = Revert (Panic DivisionByZero).
Proof.
  split; [split|].
  - apply (indexOfWinner_in_bounds (Sample.chain 100 true 1) Sample.imm 1 42 []
             (Sample.four_players CALCULATING 50)).
    discriminate.
  - reflexivity.
  - apply (indexOfWinner_in_bounds (Sample.chain 100 true 1) Sample.imm 1 42 []
             (constructor (Sample.chain 50 true 1))).
    reflexivity.
Defined.

(** ** Further properties of the contract *)

(** Every call either leaves the chain as it was and lets nothing out,
    or is one of three successful writes. *)
Lemma call_cases env imm c w :
  (execute env imm c w = w ∧ call_effects env imm c w = [])
  ∨ (exists sender value,
       c = EnterLottery sender value
       ∧ i_entranceFee imm <= value ∧ s_lotteryState w = OPEN
       ∧ execute env imm c w =
           {| s_players := s_players w ++ [sender];
              s_recentWinner := s_recentWinner w; s_lotteryState := OPEN;
              s_lastTimeStamp := s_lastTimeStamp w;
              balance := balance w + value |}
       ∧ call_effects env imm c w = [Emit (LotteryEnter sender)])
  ∨ (exists requestId,
       c = PerformUpkeep
       ∧ checkUpkeep env imm w = Return true w []
       ∧ execute env imm c w = set_lotteryState CALCULATING w
       ∧ call_effects env imm c w =
           [RequestRandomWords (i_gasLane imm) (i_subscriptionId imm)
              REQUEST_CONFIRMATIONS (i_callbackGasLimit imm) NUM_WORDS;
            Emit (RequestLotteryWinner requestId)])
  ∨ (exists requestId word rest winner,
       c = FulfillRandomWords requestId (word :: rest)
       ∧ s_players w !! N.to_nat (word mod len (s_players w)) = Some winner
       ∧ call_value_ok env winner (balance w) = true
       ∧ execute env imm c w = settled env imm winner (balance w)
       ∧ call_effects env imm c w = settled_effects env imm winner (balance w)).
Proof.
  destruct c as [sender value| | |requestId randomWords]; unfold execute, call_effects.
  - destruct (N.lt_ge_cases value (i_entranceFee imm)) as [Hlt|Hge].
    { left. now erewrite transact_Revert by now apply enterLottery_NotEnoughEther. }
    destruct (decide (s_lotteryState w = OPEN)) as [Ho|Hn].
    + right; left. exists sender, value.
      erewrite transact_Return by now apply enterLottery_Return. now cbn.
    + left. now erewrite transact_Revert by now apply enterLottery_NotOpen.
  - left. destruct (checkUpkeep_cases env imm w) as [Hp|[b Hr]].
    + now erewrite transact_Revert by exact Hp.
    + now erewrite transact_Return by exact Hr.
  - destruct (checkUpkeep_cases env imm w) as [Hp|[[|] Hr]].
    + left. erewrite transact_Revert; [now cbn|].
      unfold performUpkeep. apply bind_Revert. exact Hp.
    + destruct (vrf_requestRandomWords env (i_gasLane imm) (i_subscriptionId imm)
                  REQUEST_CONFIRMATIONS (i_callbackGasLimit imm) NUM_WORDS)
        as [requestId|] eqn:Hvrf.
      * right; right; left. exists requestId.
        erewrite transact_Return
          by (apply performUpkeep_Return with (requestId := requestId); assumption).
        now cbn.
      * left. now erewrite transact_Revert by now apply performUpkeep_CalleeReverted.
    + left. now erewrite transact_Revert by now apply performUpkeep_UpkeepNotNeeded.
  - destruct randomWords as [|word rest].
    { left. now erewrite transact_Revert by apply fulfillRandomWords_no_word. }
    destruct (decide (s_players w = [])) as [Hnil|Hne].
    { left. now erewrite transact_Revert by now apply fulfillRandomWords_DivisionByZero. }
    destruct (indexOfWinner_lookup word _ Hne) as [winner Hwin].
    destruct (call_value_ok env winner (balance w)) eqn:Hpay.
    + right; right; right. exists requestId, word, rest, winner.
      erewrite transact_Return
        by now apply fulfillRandomWords_Return with (winner := winner).
      now cbn.
    + left. now erewrite transact_Revert
        by now apply fulfillRandomWords_TransferFailed with (winner := winner).
Qed.

(** The one payment of a fulfilment is the payment of the winner. *)
Lemma SendValue_settled_effects env imm winner paid recipient amount :
  SendValue recipient amount ∈ settled_effects env imm winner paid ->
  recipient = winner ∧ amount = paid.
Proof.
  unfold settled_effects. intros Hin.
  apply elem_of_cons in Hin as [Hin|Hin]; [now injection Hin|].
  apply elem_of_app in Hin as [Hin|Hin].
  - apply list_elem_of_fmap in Hin as (entry & Heq & _). discriminate.
  - apply list_elem_of_singleton in Hin. discriminate.
Qed.

Lemma checkUpkeep_true_open env imm w w' out :
  checkUpkeep env imm w = Return true w' out -> s_lotteryState w = OPEN.
Proof.
  intros Hchk.
  destruct (N.lt_ge_cases (block_timestamp env) (s_lastTimeStamp w)) as [Hlt|Hle].
  - rewrite (checkUpkeep_Panic env imm w Hlt) in Hchk. discriminate.
  - rewrite (checkUpkeep_Return env imm w Hle) in Hchk.
    injection Hchk as Hb _ _.
    apply andb_true_iff in Hb as [Hb _]. apply andb_true_iff in Hb as [Hb _].
    apply andb_true_iff in Hb as [Ho _]. now apply bool_decide_eq_true in Ho.
Qed.

Lemma len_app_one {A} (l : list A) (x : A) : len (l ++ [x]) = len l + 1.
Proof. unfold len. rewrite length_app. cbn. lia. Qed.

(** X1. [enterLottery] goes through exactly when the value sent covers
    the entrance fee and the lottery is OPEN; it then appends the sender
    as the last player, adds the value sent to the balance, emits
    [LotteryEnter] and touches nothing else. *)
Theorem enterLottery_accepts imm msg_sender msg_value w :
  (status (transact (enterLottery imm msg_sender msg_value) w) = inr tt
     <-> i_entranceFee imm <= msg_value ∧ s_lotteryState w = OPEN)
  ∧ (i_entranceFee imm <= msg_value -> s_lotteryState w = OPEN ->
     transact (enterLottery imm msg_sender msg_value) w =
       {| post := {| s_players := s_players w ++ [msg_sender];
                     s_recentWinner := s_recentWinner w;
                     s_lotteryState := s_lotteryState w;
                     s_lastTimeStamp := s_lastTimeStamp w;
                     balance := balance w + msg_value |};
          status := inr tt;
          effects := [Emit (LotteryEnter msg_sender)] |}).
Proof.
  split.
  - split.
    + intros Hst.
      destruct (N.lt_ge_cases msg_value (i_entranceFee imm)) as [Hlt|Hge].
      { rewrite (transact_Revert _ _ _ (enterLottery_NotEnoughEther _ msg_sender _ w Hlt))
          in Hst. discriminate. }
      destruct (decide (s_lotteryState w = OPEN)) as [Ho|Hn]; [now split|].
      rewrite (transact_Revert _ _ _ (enterLottery_NotOpen _ msg_sender _ w Hge Hn))
        in Hst. discriminate.
    + intros [Hge Ho].
      now rewrite (transact_Return _ _ _ _ _ (enterLottery_Return _ msg_sender _ w Hge Ho)).
  - intros Hge Ho.
    rewrite (transact_Return _ _ _ _ _ (enterLottery_Return _ msg_sender _ w Hge Ho)).
    now rewrite Ho.
Qed.

Lemma enterLottery_accepts_witness :
  transact (enterLottery Sample.imm 55 150) (Sample.four_players OPEN 50) =
    {| post := {| s_players := [11; 22; 33; 44; 55]; s_recentWinner := 0;
                  s_lotteryState := OPEN; s_lastTimeStamp := 50; balance := 550 |};
       status := inr tt;
       effects := [Emit (LotteryEnter 55)] |}.
Proof.
  apply (proj2 (enterLottery_accepts Sample.imm 55 150 (Sample.four_players OPEN 50))).
  - cbn; lia.
  - reflexivity.
Defined.

(** X2. After an accepted entry the new player is read back by
    [getPlayer] at the index that was the number of players before,
    [getNumberOfPlayers] has grown by one, and [getPlayer] still answers
    as before at every earlier index. *)
Theorem enterLottery_getPlayer imm msg_sender msg_value w :
  i_entranceFee imm <= msg_value -> s_lotteryState w = OPEN ->
  status (transact (getPlayer (len (s_players w)))
            (post (transact (enterLottery imm msg_sender msg_value) w)))
    = inr msg_sender
  ∧ status (transact getNumberOfPlayers
              (post (transact (enterLottery imm msg_sender msg_value) w)))
    = inr (len (s_players w) + 1)
  ∧ (forall i, i < len (s_players w) ->
       status (transact (getPlayer i)
                 (post (transact (enterLottery imm msg_sender msg_value) w)))
       = status (transact (getPlayer i) w)).
Proof.
  intros Hge Ho.
  rewrite (transact_Return _ _ _ _ _ (enterLottery_Return _ msg_sender _ w Hge Ho)).
  cbn [post]. unfold transact, getPlayer, getNumberOfPlayers. run.
  split; [|split].
  - unfold len. rewrite Nat2N.id, list_lookup_middle by reflexivity. reflexivity.
  - now rewrite len_app_one.
  - intros i Hi. rewrite lookup_app_l by (unfold len in Hi; lia).
    now destruct (s_players w !! N.to_nat i).
Qed.

Lemma enterLottery_getPlayer_witness :
  status (transact (getPlayer 4)
            (post (transact (enterLottery Sample.imm 55 150)
                     (Sample.four_players OPEN 50)))) = inr 55
  ∧ status (transact getNumberOfPlayers
              (post (transact (enterLottery Sample.imm 55 150)
                       (Sample.four_players OPEN 50)))) = inr 5.
Proof.
  pose proof (enterLottery_getPlayer Sample.imm 55 150 (Sample.four_players OPEN 50))
    as H.
  destruct H as (H1 & H2 & _); [cbn; lia | reflexivity |].
  split; [exact H1 | exact H2].
Defined.

(** X3. [getPlayer] changes nothing; it returns the player stored at
    the index when the index is below the number of players, and aborts
    with the out-of-bounds panic at every other index. *)
Theorem getPlayer_bounds i w :
  post (transact (getPlayer i) w) = w
  ∧ (i < len (s_players w) ->
     exists player, s_players w !! N.to_nat i = Some player
                    ∧ status (transact (getPlayer i) w) = inr player)
  ∧ (len (s_players w) <= i ->
     status (transact (getPlayer i) w) = inl (Panic IndexOutOfBounds)).
Proof.
  unfold transact, getPlayer. run.
  destruct (s_players w !! N.to_nat i) as [player|] eqn:Hl; cbn.
  - split; [reflexivity|]. split; [intros _; now exists player|].
    intros Hge. apply lookup_lt_Some in Hl. unfold len in Hge. lia.
  - split; [reflexivity|]. split; [|reflexivity].
    intros Hlt. apply lookup_ge_None in Hl. unfold len in Hlt. lia.
Qed.

Lemma getPlayer_bounds_witness :
  (exists player, [11; 22; 33; 44] !! 3%nat = Some player
                  ∧ status (transact (getPlayer 3) (Sample.four_players OPEN 50))
                    = inr player)
  ∧ status (transact (getPlayer 4) (Sample.four_players OPEN 50))
    = inl (Panic IndexOutOfBounds).
Proof.
  pose proof (getPlayer_bounds 3 (Sample.four_players OPEN 50)) as (_ & H3 & _).
  pose proof (getPlayer_bounds 4 (Sample.four_players OPEN 50)) as (_ & _ & H4).
  split; [apply H3 | apply H4]; unfold len; cbn; lia.
Defined.

(** X4. Once [performUpkeep] has gone through, an entry is refused:
    [enterLottery] on the state it leaves fails, with
    [Lottery__NotOpen] when the value covers the fee, and changes
    nothing. *)
Theorem performUpkeep_then_enterLottery env imm msg_sender msg_value w :
  status (transact (performUpkeep env imm) w) = inr tt ->
  transact (enterLottery imm msg_sender msg_value)
    (post (transact (performUpkeep env imm) w)) =
    {| post := post (transact (performUpkeep env imm) w);
       status := inl (if msg_value <? i_entranceFee imm
                      then Lottery__NotEnoughEther else Lottery__NotOpen);
       effects := [] |}.
Proof.
  intros Hst.
  destruct (performUpkeep_cases env imm w) as [[e He]|(out & Hr & _)].
  { rewrite (transact_Revert _ _ _ He) in Hst. discriminate. }
  rewrite (transact_Return _ _ _ _ _ Hr). cbn [post].
  destruct (msg_value <? i_entranceFee imm) eqn:Hfee.
  - apply N.ltb_lt in Hfee. now apply transact_Revert, enterLottery_NotEnoughEther.
  - apply N.ltb_ge in Hfee. apply transact_Revert, enterLottery_NotOpen; [exact Hfee|].
    cbn. discriminate.
Qed.

Lemma performUpkeep_then_enterLottery_witness :
  transact (enterLottery Sample.imm 55 100)
    (post (transact (performUpkeep (Sample.chain 61 true 7) Sample.imm)
             (Sample.four_players OPEN 50))) =
    {| post := Sample.four_players CALCULATING 50;
       status := inl Lottery__NotOpen; effects := [] |}.
Proof.
  apply (performUpkeep_then_enterLottery (Sample.chain 61 true 7) Sample.imm 55 100
           (Sample.four_players OPEN 50)).
  reflexivity.
Defined.

(** X5. While the lottery is CALCULATING only a fulfilment can act on
    it: an entry, [checkUpkeep] and [performUpkeep] all leave players,
    balance, recent winner, state and last draw time as they are and
    let nothing out. *)
Theorem calculating_frozen env imm c w :
  s_lotteryState w = CALCULATING ->
  (forall requestId randomWords, c ≠ FulfillRandomWords requestId randomWords) ->
  execute env imm c w = w ∧ call_effects env imm c w = [].
Proof.
  intros Hst Hc.
  destruct (call_cases env imm c w)
    as [Hsame|[(sender & value & _ & _ & Ho & _)
              |[(requestId & _ & Hchk & _)
               |(requestId & word & rest & winner & Heq & _)]]].
  - exact Hsame.
  - congruence.
  - apply checkUpkeep_true_open in Hchk. congruence.
  - now apply Hc in Heq.
Qed.

Lemma calculating_frozen_witness :
  execute (Sample.chain 100 true 7) Sample.imm PerformUpkeep
    (Sample.four_players CALCULATING 50) = Sample.four_players CALCULATING 50
  ∧ call_effects (Sample.chain 100 true 7) Sample.imm PerformUpkeep
      (Sample.four_players CALCULATING 50) = [].
Proof.
  apply (calculating_frozen (Sample.chain 100 true 7) Sample.imm PerformUpkeep
           (Sample.four_players CALCULATING 50)).
  - reflexivity.
  - intros requestId randomWords. discriminate.
Defined.

(** X6. The state field moves in two ways only: a call that changes it
    is either [performUpkeep] on an OPEN lottery, or a fulfilment on a
    CALCULATING one. *)
Theorem lotteryState_transitions env imm c w :
  s_lotteryState (execute env imm c w) ≠ s_lotteryState w ->
  (s_lotteryState w = OPEN ∧ c = PerformUpkeep
   ∧ s_lotteryState (execute env imm c w) = CALCULATING)
  ∨ (s_lotteryState w = CALCULATING
     ∧ (exists requestId randomWords, c = FulfillRandomWords requestId randomWords)
     ∧ s_lotteryState (execute env imm c w) = OPEN).
Proof.
  intros Hne.
  destruct (call_cases env imm c w)
    as [[Hsame _]|[(sender & value & _ & _ & Ho & Hex & _)
                  |[(requestId & Hc & Hchk & Hex & _)
                   |(requestId & word & rest & winner & Hc & _ & _ & Hex & _)]]].
  - rewrite Hsame in Hne. congruence.
  - rewrite Hex in Hne. cbn in Hne. congruence.
  - left. apply checkUpkeep_true_open in Hchk. rewrite Hex. now cbn.
  - right. rewrite Hex in Hne |- *. cbn in Hne |- *.
    split; [now destruct (s_lotteryState w)|].
    split; [now exists requestId, (word :: rest) | reflexivity].
Qed.

Lemma lotteryState_transitions_witness :
  s_lotteryState (Sample.four_players OPEN 50) = OPEN
  ∧ s_lotteryState (execute (Sample.chain 61 true 7) Sample.imm PerformUpkeep
                      (Sample.four_players OPEN 50)) = CALCULATING.
Proof.
  destruct (lotteryState_transitions (Sample.chain 61 true 7) Sample.imm PerformUpkeep
              (Sample.four_players OPEN 50)) as [(Ho & _ & Hc)|(Hc & _)].
  - cbn. discriminate.
  - split; [exact Ho | exact Hc].
  - discriminate Hc.
Defined.

(** X7. Ether leaves the contract in one way only: a payment let out by
    a call belongs to a fulfilment, goes to an address that is in the
    players sequence at that time, and is the whole balance. *)
Theorem payments_go_to_players env imm c w recipient amount :
  SendValue recipient amount ∈ call_effects env imm c w ->
  (exists requestId randomWords, c = FulfillRandomWords requestId randomWords)
  ∧ recipient ∈ s_players w
  ∧ amount = balance w.
Proof.
  intros Hin.
  destruct (call_cases env imm c w)
    as [[_ Hnil]|[(sender & value & _ & _ & _ & _ & Heff)
                 |[(requestId & _ & _ & _ & Heff)
                  |(requestId & word & rest & winner & Hc & Hwin & _ & _ & Heff)]]];
    rewrite ?Hnil, ?Heff in Hin.
  - now apply elem_of_nil in Hin.
  - apply list_elem_of_singleton in Hin. discriminate.
  - apply elem_of_cons in Hin as [Hin|Hin]; [discriminate|].
    apply list_elem_of_singleton in Hin. discriminate.
  - apply SendValue_settled_effects in Hin as [-> ->].
    split; [now exists requestId, (word :: rest)|].
    split; [|reflexivity]. now apply list_elem_of_lookup_2 in Hwin.
Qed.

Lemma payments_go_to_players_witness :
  (33 : address) ∈ s_players (Sample.four_players CALCULATING 50)
  ∧ (400 : uint256) = balance (Sample.four_players CALCULATING 50).
Proof.
  apply (payments_go_to_players (Sample.chain 100 true 1) Sample.imm
           (FulfillRandomWords 1 [42]) (Sample.four_players CALCULATING 50) 33 400).
  cbn. apply elem_of_cons. now left.
Defined.

(** *** Deployed lotteries *)

Lemma execute_balance_covers env imm c w :
  i_entranceFee imm * len (s_players w) <= balance w ->
  i_entranceFee imm * len (s_players (execute env imm c w))
    <= balance (execute env imm c w).
Proof.
  intros Hw.
  destruct (call_cases env imm c w)
    as [[Hsame _]|[(sender & value & _ & Hge & _ & Hex & _)
                  |[(requestId & _ & _ & Hex & _)
                   |(requestId & word & rest & winner & _ & _ & _ & Hex & _)]]];
    rewrite ?Hsame, ?Hex; cbn; try exact Hw.
  - rewrite len_app_one. nia.
  - apply deposits_cover.
Qed.

(** X8. On a lottery deployed by the constructor and driven by calls at
    block times that never decrease, the last draw time is never ahead
    of the clock; so [checkUpkeep], evaluated at the current or a later
    time, always returns and never hits the checked subtraction. *)
Theorem deployed_clock imm now w :
  reachable imm now w ->
  s_lastTimeStamp w <= now
  ∧ (forall env, now <= block_timestamp env ->
       exists upkeepNeeded, checkUpkeep env imm w = Return upkeepNeeded w []).
Proof.
  intros Hreach. pose proof (reachable_lastTimeStamp imm now w Hreach) as Hle.
  split; [exact Hle|].
  intros env Hnow. eexists. apply checkUpkeep_Return. lia.
Qed.

Lemma deployed_clock_witness :
  s_lastTimeStamp
    (execute (Sample.chain 61 true 7) Sample.imm (EnterLottery 11 100)
       (constructor (Sample.chain 50 true 7))) <= 61.
Proof.
  apply (deployed_clock Sample.imm 61 _ reachable_one_entry).
Defined.

(** X9. On a deployed lottery the state CALCULATING comes with at least
    one player; a fulfilment that carries a random word therefore never
    panics there: it either pays the winner or fails on the payout. *)
Theorem deployed_calculating_has_players imm now w :
  reachable imm now w ->
  s_lotteryState w = CALCULATING ->
  s_players w ≠ []
  ∧ (forall env requestId word rest,
       status (transact (fulfillRandomWords env imm requestId (word :: rest)) w) = inr tt
       ∨ status (transact (fulfillRandomWords env imm requestId (word :: rest)) w)
         = inl Lottery__TransferFailed).
Proof.
  intros Hreach Hst.
  pose proof (reachable_calculating_players imm now w Hreach Hst) as Hne.
  split; [exact Hne|].
  intros env requestId word rest.
  destruct (indexOfWinner_lookup word _ Hne) as [winner Hwin].
  destruct (call_value_ok env winner (balance w)) eqn:Hpay.
  - left.
    pose proof (fulfillRandomWords_Return _ imm requestId _ rest _ _ Hwin Hpay) as Hr.
    apply transact_Return in Hr. exact (f_equal status Hr).
  - right.
    pose proof (fulfillRandomWords_TransferFailed _ imm requestId _ rest _ _ Hwin Hpay) as Hr.
    apply transact_Revert in Hr. exact (f_equal status Hr).
Qed.

Lemma deployed_calculating_has_players_witness :
  s_players
    (execute (Sample.chain 61 true 7) Sample.imm PerformUpkeep
       (execute (Sample.chain 61 true 7) Sample.imm (EnterLottery 11 100)
          (constructor (Sample.chain 50 true 7)))) ≠ [].
Proof.
  apply (deployed_calculating_has_players Sample.imm 61 _ reachable_requested).
  reflexivity.
Defined.

Lemma reachable_balance_covers imm now w :
  reachable imm now w ->
  i_entranceFee imm * len (s_players w) <= balance w.
Proof.
  induction 1 as [env|now w env c Hreach IH Hnow].
  - unfold len; cbn. lia.
  - now apply execute_balance_covers.
Qed.

(** X10. On a deployed lottery the balance always covers the entrance
    fee once for every slot of the players sequence; what a fulfilment
    pays to the winner is therefore at least the fee times the number
    of players. *)
Theorem deployed_balance_covers_players imm now w :
  reachable imm now w ->
  i_entranceFee imm * len (s_players w) <= balance w
  ∧ (forall env requestId randomWords recipient amount,
       SendValue recipient amount
         ∈ effects (transact (fulfillRandomWords env imm requestId randomWords) w) ->
       i_entranceFee imm * len (s_players w) <= amount).
Proof.
  intros Hreach. pose proof (reachable_balance_covers imm now w Hreach) as Hle.
  split; [exact Hle|].
  intros env requestId randomWords recipient amount Hin.
  change (SendValue recipient amount
            ∈ call_effects env imm (FulfillRandomWords requestId randomWords) w) in Hin.
  destruct (call_cases env imm (FulfillRandomWords requestId randomWords) w)
    as [[_ Hnil]|[(sender & value & Hc & _)
                 |[(rid & Hc & _)
                  |(rid & word & rest & winner & _ & _ & _ & _ & Heff)]]];
    try discriminate Hc.
  - rewrite Hnil in Hin. now apply elem_of_nil in Hin.
  - rewrite Heff in Hin. apply SendValue_settled_effects in Hin as [_ ->].
    exact Hle.
Qed.

Lemma deployed_balance_covers_players_witness :
  i_entranceFee Sample.imm
  * len (s_players
           (execute (Sample.chain 61 true 7) Sample.imm (EnterLottery 11 100)
              (constructor (Sample.chain 50 true 7))))
  <= balance
       (execute (Sample.chain 61 true 7) Sample.imm (EnterLottery 11 100)
          (constructor (Sample.chain 50 true 7))).
Proof.
  apply (proj1 (deployed_balance_covers_players Sample.imm 61 _ reachable_one_entry)).
Defined.

(** *** Around a draw *)

Lemma performUpkeep_no_players env imm w :
  s_players w = [] ->
  s_lastTimeStamp w <= block_timestamp env ->
  performUpkeep env imm w =
    Revert (Lottery__UpkeepNotNeeded (balance w) 0
              (LotteryState_to_uint256 (s_lotteryState w))).
Proof.
  intros Hnil Hle.
  rewrite (performUpkeep_UpkeepNotNeeded env imm w).
  - now rewrite Hnil.
  - rewrite (checkUpkeep_Return env imm w Hle), Hnil.
    change (0 <? len []) with false.
    now rewrite andb_false_r.
Qed.

(** Within the interval after the last draw no draw is requested. *)
Lemma performUpkeep_within_interval env imm w :
  s_lastTimeStamp w <= block_timestamp env ->
  block_timestamp env <= s_lastTimeStamp w + i_interval imm ->
  performUpkeep env imm w =
    Revert (Lottery__UpkeepNotNeeded (balance w) (len (s_players w))
              (LotteryState_to_uint256 (s_lotteryState w))).
Proof.
  intros Hle Hearly. apply performUpkeep_UpkeepNotNeeded.
  rewrite (checkUpkeep_Return env imm w Hle).
  replace (i_interval imm <? block_timestamp env - s_lastTimeStamp w) with false
    by (symmetry; apply N.ltb_ge; lia).
  now rewrite andb_false_r.
Qed.

(** A fulfilment during which nobody entered leaves no player and no
    balance. *)
Lemma settled_no_entry env imm winner paid :
  (forall player,
     Emit (LotteryEnter player) ∉ settled_effects env imm winner paid) ->
  settled env imm winner paid =
    {| s_players := []; s_recentWinner := winner; s_lotteryState := OPEN;
       s_lastTimeStamp := block_timestamp env; balance := 0 |}.
Proof.
  unfold settled, settled_effects. intros Hnone.
  destruct (accepted_entries imm (call_value_reentry env winner paid))
    as [|[player value] entries]; [reflexivity|].
  exfalso. apply (Hnone player).
  apply elem_of_cons; right. apply elem_of_app; left.
  cbn. apply elem_of_cons. now left.
Qed.

(** X11. A fulfilment that went through and during which nobody entered
    (it emitted no [LotteryEnter]) cannot be repeated: a second delivery
    of random words, under any request id, aborts on the modulo by zero
    and pays nobody, and [getPlayer] aborts at every index. *)
Theorem fulfillRandomWords_settles_once
    env env' imm requestId requestId' randomWords word rest w :
  status (transact (fulfillRandomWords env imm requestId randomWords) w) = inr tt ->
  (forall player,
     Emit (LotteryEnter player)
       ∉ effects (transact (fulfillRandomWords env imm requestId randomWords) w)) ->
  transact (fulfillRandomWords env' imm requestId' (word :: rest))
    (post (transact (fulfillRandomWords env imm requestId randomWords) w)) =
    {| post := post (transact (fulfillRandomWords env imm requestId randomWords) w);
       status := inl (Panic DivisionByZero);
       effects := [] |}
  ∧ (forall i,
       status (transact (getPlayer i)
                 (post (transact (fulfillRandomWords env imm requestId randomWords) w)))
       = inl (Panic IndexOutOfBounds)).
Proof.
  intros Hst Hnone.
  destruct (transact_status_inr _ _ _ Hst) as (w' & out & Hr).
  rewrite (transact_Return _ _ _ _ _ Hr) in Hnone |- *. cbn [post effects] in *.
  destruct (fulfillRandomWords_Return_inv _ _ _ _ _ _ _ Hr)
    as (word0 & rest0 & winner & _ & _ & _ & -> & ->).
  rewrite (settled_no_entry _ _ _ _ Hnone). split.
  - now apply transact_Revert, fulfillRandomWords_DivisionByZero.
  - intros i. unfold transact, getPlayer. run. reflexivity.
Qed.

Lemma fulfillRandomWords_settles_once_witness :
  transact (fulfillRandomWords (Sample.chain 101 true 1) Sample.imm 1 [42])
    (post (transact (fulfillRandomWords (Sample.chain 100 true 1) Sample.imm 1 [42])
             (Sample.four_players CALCULATING 50))) =
    {| post :=
         post (transact (fulfillRandomWords (Sample.chain 100 true 1) Sample.imm 1 [42])
                 (Sample.four_players CALCULATING 50));
       status := inl (Panic DivisionByZero);
       effects := [] |}.
Proof.
  apply (fulfillRandomWords_settles_once (Sample.chain 100 true 1)
           (Sample.chain 101 true 1) Sample.imm 1 1 [42] 42 []
           (Sample.four_players CALCULATING 50)).
  - reflexivity.
  - intros player Hin. cbn in Hin.
    apply elem_of_cons in Hin as [Hin|Hin]; [discriminate Hin|].
    apply list_elem_of_singleton in Hin. discriminate Hin.
Defined.

(** X12. After a fulfilment that went through, [performUpkeep] fails
    with [Lottery__UpkeepNotNeeded] and changes nothing as long as no
    more than the interval has elapsed since the fulfilment, whoever
    entered meanwhile; and when nobody entered during the fulfilment (it
    emitted no [LotteryEnter]), [performUpkeep] fails with
    [Lottery__UpkeepNotNeeded(0, 0, 0)] on the state it left, at any
    later time. *)
Theorem fulfillRandomWords_then_performUpkeep env env' imm requestId randomWords w :
  status (transact (fulfillRandomWords env imm requestId randomWords) w) = inr tt ->
  block_timestamp env <= block_timestamp env' ->
  (block_timestamp env' <= block_timestamp env + i_interval imm ->
   transact (performUpkeep env' imm)
     (post (transact (fulfillRandomWords env imm requestId randomWords) w)) =
     {| post := post (transact (fulfillRandomWords env imm requestId randomWords) w);
        status :=
          inl (Lottery__UpkeepNotNeeded
                 (balance
                    (post (transact (fulfillRandomWords env imm requestId randomWords) w)))
                 (len (s_players
                         (post (transact (fulfillRandomWords env imm requestId
                                            randomWords) w))))
                 0);
        effects := [] |})
  ∧ ((forall player,
        Emit (LotteryEnter player)
          ∉ effects (transact (fulfillRandomWords env imm requestId randomWords) w)) ->
     transact (performUpkeep env' imm)
       (post (transact (fulfillRandomWords env imm requestId randomWords) w)) =
       {| post := post (transact (fulfillRandomWords env imm requestId randomWords) w);
          status := inl (Lottery__UpkeepNotNeeded 0 0 0);
          effects := [] |}).
Proof.
  intros Hst Hle.
  destruct (transact_status_inr _ _ _ Hst) as (w' & out & Hr).
  rewrite (transact_Return _ _ _ _ _ Hr). cbn [post effects].
  destruct (fulfillRandomWords_Return_inv _ _ _ _ _ _ _ Hr)
    as (word & rest & winner & _ & _ & _ & -> & ->).
  split.
  - intros Hearly. apply transact_Revert.
    now rewrite performUpkeep_within_interval.
  - intros Hnone. rewrite (settled_no_entry _ _ _ _ Hnone).
    apply transact_Revert. now rewrite performUpkeep_no_players.
Qed.

Lemma fulfillRandomWords_then_performUpkeep_witness :
  transact (performUpkeep (Sample.reentrant_chain 105 1) Sample.imm)
    (post (transact (fulfillRandomWords (Sample.reentrant_chain 100 1) Sample.imm
                       1 [42])
             (Sample.four_players CALCULATING 50))) =
    {| post :=
         post (transact (fulfillRandomWords (Sample.reentrant_chain 100 1) Sample.imm
                           1 [42])
                 (Sample.four_players CALCULATING 50));
       status := inl (Lottery__UpkeepNotNeeded 400 1 0);
       effects := [] |}
  ∧ transact (performUpkeep (Sample.chain 500 true 1) Sample.imm)
      (post (transact (fulfillRandomWords (Sample.chain 100 true 1) Sample.imm 1 [42])
               (Sample.four_players CALCULATING 50))) =
      {| post :=
           post (transact (fulfillRandomWords (Sample.chain 100 true 1) Sample.imm
                             1 [42])
                   (Sample.four_players CALCULATING 50));
         status := inl (Lottery__UpkeepNotNeeded 0 0 0);
         effects := [] |}.
Proof.
  split.
  - apply (fulfillRandomWords_then_performUpkeep (Sample.reentrant_chain 100 1)
             (Sample.reentrant_chain 105 1) Sample.imm 1 [42]
             (Sample.four_players CALCULATING 50)).
    + reflexivity.
    + cbn; lia.
    + cbn; lia.
  - apply (fulfillRandomWords_then_performUpkeep (Sample.chain 100 true 1)
             (Sample.chain 500 true 1) Sample.imm 1 [42]
             (Sample.four_players CALCULATING 50)).
    + reflexivity.
    + cbn; lia.
    + intros player Hin. cbn in Hin.
      apply elem_of_cons in Hin as [Hin|Hin]; [discriminate Hin|].
      apply list_elem_of_singleton in Hin. discriminate Hin.
Defined.

(** X13. A freshly deployed lottery has nothing to draw: at the time of
    deployment or any later time [performUpkeep] fails with
    [Lottery__UpkeepNotNeeded(0, 0, 0)], however long the interval has
    elapsed. *)
Theorem constructor_performUpkeep env env' imm :
  block_timestamp env <= block_timestamp env' ->
  transact (performUpkeep env' imm) (constructor env) =
    {| post := constructor env;
       status := inl (Lottery__UpkeepNotNeeded 0 0 0);
       effects := [] |}.
Proof.
  intros Hle. apply transact_Revert.
  now rewrite performUpkeep_no_players.
Qed.

Lemma constructor_performUpkeep_witness :
  transact (performUpkeep (Sample.chain 500 true 1) Sample.imm)
    (constructor (Sample.chain 50 true 1)) =
    {| post := constructor (Sample.chain 50 true 1);
       status := inl (Lottery__UpkeepNotNeeded 0 0 0);
       effects := [] |}.
Proof.
  apply (constructor_performUpkeep (Sample.chain 50 true 1) (Sample.chain 500 true 1)
           Sample.imm).
  cbn; lia.
Defined.

(** *** Selecting the winner *)

(** X14. Only the residue of the random word modulo the number of
    players matters, and only the first word: two deliveries whose
    first words are congruent modulo [players.length] have the same
    outcome. *)
Theorem fulfillRandomWords_residue env imm requestId word word' rest rest' w :
  word mod len (s_players w) = word' mod len (s_players w) ->
  transact (fulfillRandomWords env imm requestId (word :: rest)) w
  = transact (fulfillRandomWords env imm requestId (word' :: rest')) w.
Proof.
  unfold uint256 in *. intros Heq.
  destruct (decide (s_players w = [])) as [Hp|Hp].
  { rewrite (transact_Revert _ _ _
               (fulfillRandomWords_DivisionByZero _ imm requestId word rest w Hp)).
    now rewrite (transact_Revert _ _ _
                   (fulfillRandomWords_DivisionByZero _ imm requestId word' rest' w Hp)). }
  destruct (indexOfWinner_lookup word _ Hp) as [winner Hwin].
  assert (Hwin' : s_players w !! N.to_nat (word' mod len (s_players w)) = Some winner)
    by now rewrite <- Heq.
  destruct (call_value_ok env winner (balance w)) eqn:Hpay.
  - rewrite (transact_Return _ _ _ _ _
               (fulfillRandomWords_Return _ imm requestId _ rest _ _ Hwin Hpay)).
    now rewrite (transact_Return _ _ _ _ _
                   (fulfillRandomWords_Return _ imm requestId _ rest' _ _ Hwin' Hpay)).
  - rewrite (transact_Revert _ _ _
               (fulfillRandomWords_TransferFailed _ imm requestId _ rest _ _ Hwin Hpay)).
    now rewrite (transact_Revert _ _ _
                   (fulfillRandomWords_TransferFailed _ imm requestId _ rest' _ _ Hwin' Hpay)).
Qed.

Lemma fulfillRandomWords_residue_witness :
  transact (fulfillRandomWords (Sample.chain 100 true 1) Sample.imm 1 [42; 5])
    (Sample.four_players CALCULATING 50)
  = transact (fulfillRandomWords (Sample.chain 100 true 1) Sample.imm 1 [2])
      (Sample.four_players CALCULATING 50).
Proof.
  apply (fulfillRandomWords_residue (Sample.chain 100 true 1) Sample.imm 1 42 2 [5] []
           (Sample.four_players CALCULATING 50)).
  reflexivity.
Defined.

(** X15. Every slot of the players sequence can win: delivered with the
    random word [i], a fulfilment whose payout succeeds goes through,
    makes the player stored at index [i] the recent winner, sends that
    player the whole balance and announces it with [WinnerPicked]. *)
Theorem every_slot_can_win env imm requestId i rest w player :
  s_players w !! N.to_nat i = Some player ->
  call_value_ok env player (balance w) = true ->
  status (transact (fulfillRandomWords env imm requestId (i :: rest)) w) = inr tt
  ∧ s_recentWinner
      (post (transact (fulfillRandomWords env imm requestId (i :: rest)) w)) = player
  ∧ head (effects (transact (fulfillRandomWords env imm requestId (i :: rest)) w))
    = Some (SendValue player (balance w))
  ∧ last (effects (transact (fulfillRandomWords env imm requestId (i :: rest)) w))
    = Some (Emit (WinnerPicked player)).
Proof.
  intros Hl Hpay.
  assert (Hlt : i < len (s_players w))
    by (apply lookup_lt_Some in Hl; unfold len; lia).
  assert (Hwin : s_players w !! N.to_nat (i mod len (s_players w)) = Some player)
    by now rewrite N.mod_small.
  pose proof (fulfillRandomWords_Return env imm requestId i rest w player Hwin Hpay)
    as Hr.
  apply transact_Return in Hr.
  unfold uint256 in *. rewrite Hr. cbn.
  repeat split. unfold settled_effects.
  rewrite app_comm_cons. apply last_snoc.
Qed.

Lemma every_slot_can_win_witness :
  status (transact (fulfillRandomWords (Sample.reentrant_chain 100 1) Sample.imm 1 [3])
            (Sample.four_players CALCULATING 50)) = inr tt
  ∧ s_recentWinner
      (post (transact (fulfillRandomWords (Sample.reentrant_chain 100 1) Sample.imm
                         1 [3])
               (Sample.four_players CALCULATING 50))) = 44
  ∧ head (effects (transact (fulfillRandomWords (Sample.reentrant_chain 100 1)
                               Sample.imm 1 [3])
                     (Sample.four_players CALCULATING 50)))
    = Some (SendValue 44 400)
  ∧ last (effects (transact (fulfillRandomWords (Sample.reentrant_chain 100 1)
                               Sample.imm 1 [3])
                     (Sample.four_players CALCULATING 50)))
    = Some (Emit (WinnerPicked 44)).
Proof.
  apply (every_slot_can_win (Sample.reentrant_chain 100 1) Sample.imm 1 3 []
           (Sample.four_players CALCULATING 50) 44); reflexivity.
Defined.

(** X16. [fulfillRandomWords] looks at the players and the balance
    only: from two states with the same players and the same balance,
    whatever their state field, recent winner and last draw time, it
    has the same status and the same effects, and when it goes through
    it leaves the same state.  On an OPEN lottery with players it pays
    out just as on a CALCULATING one. *)
Theorem fulfillRandomWords_unguarded env imm requestId randomWords w1 w2 :
  s_players w1 = s_players w2 ->
  balance w1 = balance w2 ->
  status (transact (fulfillRandomWords env imm requestId randomWords) w1)
  = status (transact (fulfillRandomWords env imm requestId randomWords) w2)
  ∧ effects (transact (fulfillRandomWords env imm requestId randomWords) w1)
    = effects (transact (fulfillRandomWords env imm requestId randomWords) w2)
  ∧ (status (transact (fulfillRandomWords env imm requestId randomWords) w1) = inr tt ->
     post (transact (fulfillRandomWords env imm requestId randomWords) w1)
     = post (transact (fulfillRandomWords env imm requestId randomWords) w2)).
Proof.
  unfold uint256 in *. intros Hp Hb.
  destruct randomWords as [|word rest].
  { rewrite !(transact_Revert _ _ _ (fulfillRandomWords_no_word _ imm requestId _)).
    cbn. repeat split. discriminate. }
  destruct (decide (s_players w2 = [])) as [Hnil|Hne].
  { assert (Hnil1 : s_players w1 = []) by congruence.
    rewrite (transact_Revert _ _ _
               (fulfillRandomWords_DivisionByZero _ imm requestId word rest w1 Hnil1)).
    rewrite (transact_Revert _ _ _
               (fulfillRandomWords_DivisionByZero _ imm requestId word rest w2 Hnil)).
    cbn. repeat split. discriminate. }
  destruct (indexOfWinner_lookup word _ Hne) as [winner Hwin].
  assert (Hwin1 : s_players w1 !! N.to_nat (word mod len (s_players w1)) = Some winner)
    by now rewrite Hp.
  destruct (call_value_ok env winner (balance w2)) eqn:Hpay.
  - assert (Hpay1 : call_value_ok env winner (balance w1) = true) by now rewrite Hb.
    rewrite (transact_Return _ _ _ _ _
               (fulfillRandomWords_Return _ imm requestId _ rest _ _ Hwin1 Hpay1)).
    rewrite (transact_Return _ _ _ _ _
               (fulfillRandomWords_Return _ imm requestId _ rest _ _ Hwin Hpay)).
    cbn. now rewrite Hb.
  - assert (Hpay1 : call_value_ok env winner (balance w1) = false) by now rewrite Hb.
    rewrite (transact_Revert _ _ _
               (fulfillRandomWords_TransferFailed _ imm requestId _ rest _ _ Hwin1 Hpay1)).
    rewrite (transact_Revert _ _ _
               (fulfillRandomWords_TransferFailed _ imm requestId _ rest _ _ Hwin Hpay)).
    cbn. repeat split. discriminate.
Qed.

Lemma fulfillRandomWords_unguarded_witness :
  status (transact (fulfillRandomWords (Sample.chain 100 true 1) Sample.imm 1 [42])
            (Sample.four_players OPEN 99))
  = status (transact (fulfillRandomWords (Sample.chain 100 true 1) Sample.imm 1 [42])
              (Sample.four_players CALCULATING 50)).
Proof.
  apply (fulfillRandomWords_unguarded (Sample.chain 100 true 1) Sample.imm 1 [42]
           (Sample.four_players OPEN 99) (Sample.four_players CALCULATING 50));
    reflexivity.
Defined.

(** *** Requesting a draw *)

(** X17. With a clock that is not behind the last draw,
    [performUpkeep] goes through exactly when the four conditions of
    [checkUpkeep] hold and the coordinator answers the request; when the
    conditions hold and the coordinator reverts, the whole call is
    undone and the lottery is not left CALCULATING. *)
Theorem performUpkeep_accepts env imm w :
  s_lastTimeStamp w <= block_timestamp env ->
  (status (transact (performUpkeep env imm) w) = inr tt
     <-> eligible (block_timestamp env) imm w
         ∧ is_Some (vrf_requestRandomWords env (i_gasLane imm) (i_subscriptionId imm)
                      REQUEST_CONFIRMATIONS (i_callbackGasLimit imm) NUM_WORDS))
  ∧ (eligible (block_timestamp env) imm w ->
     vrf_requestRandomWords env (i_gasLane imm) (i_subscriptionId imm)
       REQUEST_CONFIRMATIONS (i_callbackGasLimit imm) NUM_WORDS = None ->
     transact (performUpkeep env imm) w =
       {| post := w; status := inl CalleeReverted; effects := [] |}).
Proof.
  intros Hle.
  pose proof (checkUpkeep_Return env imm w Hle) as Hchk.
  pose proof (upkeepNeeded_eligible env imm w Hle) as Hiff.
  destruct (bool_decide (OPEN = s_lotteryState w)
            && (i_interval imm <? block_timestamp env - s_lastTimeStamp w)
            && (0 <? len (s_players w)) && (0 <? balance w)) eqn:Hb.
  - assert (He : eligible (block_timestamp env) imm w) by now apply Hiff.
    destruct (vrf_requestRandomWords env (i_gasLane imm) (i_subscriptionId imm)
                REQUEST_CONFIRMATIONS (i_callbackGasLimit imm) NUM_WORDS)
      as [requestId|] eqn:Hvrf.
    + rewrite (transact_Return _ _ _ _ _ (performUpkeep_Return _ _ _ _ Hchk Hvrf)).
      cbn. split; [|discriminate]. split; [|reflexivity].
      intros _. split; [exact He | now exists requestId].
    + rewrite (transact_Revert _ _ _ (performUpkeep_CalleeReverted _ _ _ Hchk Hvrf)).
      cbn. split; [|reflexivity]. split; [discriminate|].
      intros [_ [x Hx]]. discriminate.
  - rewrite (transact_Revert _ _ _ (performUpkeep_UpkeepNotNeeded _ _ _ Hchk)).
    cbn. split.
    + split; [discriminate|]. intros [He _]. apply Hiff in He. discriminate.
    + intros He. apply Hiff in He. discriminate.
Qed.

(** A chain whose coordinator refuses every request. *)
Lemma performUpkeep_accepts_witness :
  transact (performUpkeep
              {| block_timestamp := 61; call_value_ok := fun _ _ => true;
                 call_value_reentry := fun _ _ => [];
                 vrf_requestRandomWords := fun _ _ _ _ _ => None |}
              Sample.imm)
    (Sample.four_players OPEN 50) =
    {| post := Sample.four_players OPEN 50;
       status := inl CalleeReverted; effects := [] |}.
Proof.
  apply (performUpkeep_accepts
           {| block_timestamp := 61; call_value_ok := fun _ _ => true;
              call_value_reentry := fun _ _ => [];
              vrf_requestRandomWords := fun _ _ _ _ _ => None |}
           Sample.imm (Sample.four_players OPEN 50)).
  - cbn; lia.
  - unfold eligible; cbn. repeat split; try lia. discriminate.
  - reflexivity.
Defined.

(** X18. A whole round with a single entrant.  On an OPEN lottery
    without players (a freshly deployed one in particular) one player
    enters with a value that covers the fee; once more than the interval
    has elapsed since the last draw time and the balance is not zero,
    [performUpkeep] goes through; the fulfilment then picks that player
    whatever the random word and the request id, and sends it the whole
    balance, which is what the lottery held plus the value entered.  If
    the player does not call back while it is paid, the lottery is left
    OPEN, without players and with an empty balance. *)
Theorem single_entrant_round
    env1 env2 imm w player value issued requestId word rest :
  s_players w = [] -> s_lotteryState w = OPEN ->
  i_entranceFee imm <= value -> 0 < balance w + value ->
  s_lastTimeStamp w + i_interval imm < block_timestamp env1 ->
  vrf_requestRandomWords env1 (i_gasLane imm) (i_subscriptionId imm)
    REQUEST_CONFIRMATIONS (i_callbackGasLimit imm) NUM_WORDS = Some issued ->
  call_value_ok env2 player (balance w + value) = true ->
  status (transact (performUpkeep env1 imm)
            (post (transact (enterLottery imm player value) w)))
    = inr tt
  ∧ status (transact (fulfillRandomWords env2 imm requestId (word :: rest))
              (post (transact (performUpkeep env1 imm)
                       (post (transact (enterLottery imm player value) w)))))
    = inr tt
  ∧ s_recentWinner
      (post (transact (fulfillRandomWords env2 imm requestId (word :: rest))
               (post (transact (performUpkeep env1 imm)
                        (post (transact (enterLottery imm player value) w))))))
    = player
  ∧ head (effects (transact (fulfillRandomWords env2 imm requestId (word :: rest))
                     (post (transact (performUpkeep env1 imm)
                              (post (transact (enterLottery imm player value) w))))))
    = Some (SendValue player (balance w + value))
  ∧ (call_value_reentry env2 player (balance w + value) = [] ->
     transact (fulfillRandomWords env2 imm requestId (word :: rest))
       (post (transact (performUpkeep env1 imm)
                (post (transact (enterLottery imm player value) w)))) =
       {| post := {| s_players := []; s_recentWinner := player;
                     s_lotteryState := OPEN;
                     s_lastTimeStamp := block_timestamp env2; balance := 0 |};
          status := inr tt;
          effects := [SendValue player (balance w + value);
                      Emit (WinnerPicked player)] |}).
Proof.
  unfold uint256 in *. intros Hnil Ho Hfee Hpos Htime Hvrf Hpay.
  rewrite (transact_Return _ _ _ _ _ (enterLottery_Return imm player value w Hfee Ho)).
  cbn [post]. rewrite Hnil. cbn [app].
  set (w1 := {| s_players := [player]; s_recentWinner := s_recentWinner w;
                s_lotteryState := OPEN; s_lastTimeStamp := s_lastTimeStamp w;
                balance := balance w + value |}).
  assert (Hchk : checkUpkeep env1 imm w1 = Return true w1 []).
  { rewrite checkUpkeep_Return by (cbn; lia). f_equal.
    apply upkeepNeeded_eligible; [cbn; lia|].
    unfold eligible; cbn. repeat split; [lia | discriminate | exact Hpos]. }
  rewrite (transact_Return _ _ _ _ _ (performUpkeep_Return _ _ _ _ Hchk Hvrf)).
  cbn [post status]. split; [reflexivity|].
  assert (Hr : fulfillRandomWords env2 imm requestId (word :: rest)
                 (set_lotteryState CALCULATING w1)
               = Return tt (settled env2 imm player (balance w + value))
                   (settled_effects env2 imm player (balance w + value))).
  { apply (fulfillRandomWords_Return env2 imm requestId word rest
             (set_lotteryState CALCULATING w1) player).
    - cbn. unfold len; cbn. now rewrite N.mod_1_r.
    - exact Hpay. }
  apply transact_Return in Hr. rewrite Hr. cbn.
  repeat split.
  intros Hnone. unfold settled, settled_effects. now rewrite Hnone.
Qed.

Lemma single_entrant_round_witness :
  transact (fulfillRandomWords (Sample.chain 70 true 7) Sample.imm 7 [7])
    (post (transact (performUpkeep (Sample.chain 61 true 7) Sample.imm)
             (post (transact (enterLottery Sample.imm 11 100)
                      (constructor (Sample.chain 50 true 7)))))) =
    {| post := {| s_players := []; s_recentWinner := 11; s_lotteryState := OPEN;
                  s_lastTimeStamp := 70; balance := 0 |};
       status := inr tt;
       effects := [SendValue 11 100; Emit (WinnerPicked 11)] |}.
Proof.
  destruct (single_entrant_round (Sample.chain 61 true 7) (Sample.chain 70 true 7)
              Sample.imm (constructor (Sample.chain 50 true 7)) 11 100 7 7 7 [])
    as (_ & _ & _ & _ & Hplain).
  - reflexivity.
  - reflexivity.
  - cbn; lia.
  - cbn; lia.
  - cbn; lia.
  - reflexivity.
  - reflexivity.
  - apply Hplain. reflexivity.
Defined.

(** ** Properties of the front-end address book *)

Lemma updateContractAddresses_listed
    (chainId lottery_address : string) (contractAddresses : gmap string (list string)) :
  exists addresses,
    FrontEnd.updateContractAddresses chainId lottery_address contractAddresses
      !! chainId = Some addresses
    ∧ lottery_address ∈ addresses.
Proof.
  unfold FrontEnd.updateContractAddresses.
  destruct (contractAddresses !! chainId) as [addresses|] eqn:Hl.
  - case_bool_decide as Hin.
    + now exists addresses.
    + exists (addresses ++ [lottery_address]). split; [apply lookup_insert_eq|].
      apply elem_of_app; right. now apply list_elem_of_singleton.
  - exists [lottery_address]. split; [apply lookup_insert_eq|].
    now apply list_elem_of_singleton.
Qed.

Lemma updateContractAddresses_known
    (chainId lottery_address : string) (contractAddresses : gmap string (list string))
    (addresses : list string) :
  contractAddresses !! chainId = Some addresses ->
  lottery_address ∈ addresses ->
  FrontEnd.updateContractAddresses chainId lottery_address contractAddresses
  = contractAddresses.
Proof.
  intros Hl Hin. unfold FrontEnd.updateContractAddresses.
  rewrite Hl. now rewrite bool_decide_eq_true_2.
Qed.

(** X19. After [updateContractAddresses] the address of the lottery is
    listed under the chain id; the addresses that were listed there
    before are kept, in their order, in front of it; the entries of the
    other chain ids are untouched. *)
Theorem updateContractAddresses_registers
    (chainId lottery_address : string) (contractAddresses : gmap string (list string)) :
  (exists addresses,
     FrontEnd.updateContractAddresses chainId lottery_address contractAddresses
       !! chainId = Some addresses
     ∧ lottery_address ∈ addresses
     ∧ (forall before, contractAddresses !! chainId = Some before ->
          before `prefix_of` addresses))
  ∧ (forall other, other ≠ chainId ->
       FrontEnd.updateContractAddresses chainId lottery_address contractAddresses
         !! other = contractAddresses !! other).
Proof.
  unfold FrontEnd.updateContractAddresses.
  destruct (contractAddresses !! chainId) as [addresses|] eqn:Hl.
  - case_bool_decide as Hin.
    + split.
      * exists addresses. split; [exact Hl|]. split; [exact Hin|].
        intros before Hb. now injection Hb as ->.
      * reflexivity.
    + split.
      * exists (addresses ++ [lottery_address]).
        split; [apply lookup_insert_eq|].
        split; [apply elem_of_app; right; now apply list_elem_of_singleton|].
        intros before Hb. injection Hb as ->. now exists [lottery_address].
      * intros other Hne. now apply lookup_insert_ne.
  - split.
    + exists [lottery_address].
      split; [apply lookup_insert_eq|].
      split; [now apply list_elem_of_singleton|].
      intros before Hb. discriminate.
    + intros other Hne. now apply lookup_insert_ne.
Qed.

Lemma updateContractAddresses_registers_witness :
  FrontEnd.updateContractAddresses "31337" "0xB"
    (<["31337" := ["0xA"]]> (∅ : gmap string (list string))) !! "4"
  = (<["31337" := ["0xA"]]> (∅ : gmap string (list string))) !! "4".
Proof.
  apply (proj2 (updateContractAddresses_registers "31337" "0xB"
                  (<["31337" := ["0xA"]]> (∅ : gmap string (list string))))).
  discriminate.
Defined.

(** X20. [updateContractAddresses] registers an address once: running
    it a second time with the same chain id and address changes
    nothing. *)
Theorem updateContractAddresses_idempotent
    (chainId lottery_address : string) (contractAddresses : gmap string (list string)) :
  FrontEnd.updateContractAddresses chainId lottery_address
    (FrontEnd.updateContractAddresses chainId lottery_address contractAddresses)
  = FrontEnd.updateContractAddresses chainId lottery_address contractAddresses.
Proof.
  destruct (updateContractAddresses_listed chainId lottery_address contractAddresses)
    as (addresses & Hl & Hin).
  now apply updateContractAddresses_known with (addresses := addresses).
Qed.

(** X21. [updateContractAddresses] never lists an address twice: if no
    chain id of the address book lists an address twice, none does
    after the update. *)
Theorem updateContractAddresses_NoDup
    (chainId lottery_address : string) (contractAddresses : gmap string (list string)) :
  map_Forall (fun _ addresses => NoDup addresses) contractAddresses ->
  map_Forall (fun _ addresses => NoDup addresses)
    (FrontEnd.updateContractAddresses chainId lottery_address contractAddresses).
Proof.
  intros Hall. unfold FrontEnd.updateContractAddresses.
  destruct (contractAddresses !! chainId) as [addresses|] eqn:Hl.
  - case_bool_decide as Hin; [exact Hall|].
    apply map_Forall_insert_2; [|exact Hall].
    apply NoDup_app. split; [exact (Hall _ _ Hl)|].
    split; [|apply NoDup_singleton].
    intros x Hx Hx'. apply list_elem_of_singleton in Hx'. now subst.
  - apply map_Forall_insert_2; [|exact Hall]. apply NoDup_singleton.
Qed.

Lemma updateContractAddresses_NoDup_witness :
  map_Forall (fun _ addresses => NoDup addresses)
    (FrontEnd.updateContractAddresses "31337" "0xB"
       (<["31337" := ["0xA"]]> (∅ : gmap string (list string)))).
Proof.
  apply (updateContractAddresses_NoDup "31337" "0xB"
           (<["31337" := ["0xA"]]> (∅ : gmap string (list string)))).
  apply map_Forall_insert_2; [apply NoDup_singleton | apply map_Forall_empty].
Defined.

End Lottery.
